(** * Sign sync engine ([user_sync/engine/sign.py]): a shallow embedding

    The Python class [SignSyncEngine] reconciles directory users with the
    users of one or more Sign consoles.  This file embeds its methods as
    Rocq functions and states the properties of the reconciliation logic
    as theorems about those functions.

    Conventions of the embedding:
    - Python [str] is [string]; [str.lower()] is [lower], which folds the
      ASCII letters A-Z and leaves every other byte unchanged.
    - A [dict] that is iterated ([directory_users], the result of
      [get_users()]) is an association list in insertion order; a [dict]
      that is only looked up is a [gmap]; a [defaultdict(list)] is a [gmap]
      read with the total lookup [!!!]; a [set] is a [gset].
    - Calls on collaborators (the Sign connector, the directory connector)
      are recorded, in order, in the world state; a failing call raises
      [AssertionException], the error class of [user_sync.error].
    - Methods that log, call a connector or raise live in the monad [M]. *)

From Stdlib Require Import Ascii String List Permutation Sorted.
From stdpp Require Import base option list sorting gmap strings.

(** ** Strings *)

Definition lower_ascii (c : ascii) : ascii :=
  let n := N_of_ascii c in
  if ((65 <=? n) && (n <=? 90))%N then ascii_of_N (n + 32) else c.

Fixpoint lower (s : string) : string :=
  match s with
  | EmptyString => EmptyString
  | String c s' => String (lower_ascii c) (lower s')
  end.

(** [s.find(c) >= 0] *)
Fixpoint contains_char (c : ascii) (s : string) : bool :=
  match s with
  | EmptyString => false
  | String c' s' => if Ascii.eqb c c' then true else contains_char c s'
  end.

(** Truthiness of a [str] or [None] value: [None] and the empty string are
    falsy. *)
Definition truthy (o : option string) : bool :=
  match o with
  | Some (String _ _) => true
  | _ => false
  end.

(** ** Insertion-ordered dictionaries *)

Module Dict.
Section dict.
Context {V : Type}.

Fixpoint get (k : string) (d : list (string * V)) : option V :=
  match d with
  | [] => None
  | (k', v) :: d' => if decide (k = k') then Some v else get k d'
  end.

(** [d[k] = v]: an existing key keeps its position. *)
Fixpoint set (k : string) (v : V) (d : list (string * V)) : list (string * V) :=
  match d with
  | [] => [(k, v)]
  | (k', v') :: d' =>
      if decide (k = k') then (k, v) :: d' else (k', v') :: set k v d'
  end.

Definition keys (d : list (string * V)) : list string := d.*1.
Definition values (d : list (string * V)) : list V := d.*2.
End dict.
End Dict.

(** ** Exceptions and the engine monad *)

Inductive exn :=
| AssertionException (msg : string)   (* user_sync.error.AssertionException *)
| AssertionError (msg : string).      (* the Python builtin *)

Definition is_AssertionException (e : exn) : bool :=
  match e with AssertionException _ => true | _ => false end.

Definition is_AssertionError (e : exn) : bool :=
  match e with AssertionError _ => true | _ => false end.

(** [format(e)] *)
Definition exn_message (e : exn) : string :=
  match e with AssertionException m | AssertionError m => m end.

Inductive result (A : Type) :=
| Ok (a : A)
| Raise (e : exn).
Arguments Ok {A} a.
Arguments Raise {A} e.

(** What a collaborator's operation reports to its caller. *)
Inductive outcome (A : Type) :=
| Done (a : A)
| Failed (msg : string).
Arguments Done {A} a.
Arguments Failed {A} msg.

(** ** Data model *)

Record DirectoryUser := {
  email : string;
  firstname : string;
  lastname : string;
  username : option string;
  domain : option string;
  identity_type : option string;   (* directory_user.get('identity_type') *)
  type : string;                   (* umapi_user['type'] *)
  groups : list string;
}.

Inductive SignRoles :=
| RoleStr (role : string)
| RoleList (roles : list string).

Record SignUser := {
  su_email : string;
  su_firstName : string;
  su_lastName : string;
  su_userId : string;
  su_group : string;
  su_roles : SignRoles;
}.

(** [update_data] and [insert_data] *)
Record Profile := {
  p_email : string;
  p_firstName : string;
  p_groupId : string;
  p_lastName : string;
  p_roles : list string;
}.

Inductive Call :=
| CallSignGroups
| CallCreateGroup (name : string)
| CallGetUsers
| CallGetGroup (name : string)
| CallUpdateUser (user_id : string) (data : Profile)
| CallInsertUser (data : Profile)
| CallDeactivateUser (user_id : string) (data : list (string * string)).

(** The calls that change the Sign console. *)
Definition mutating (c : Call) : bool :=
  match c with
  | CallCreateGroup _ | CallUpdateUser _ _ | CallInsertUser _
  | CallDeactivateUser _ _ => true
  | _ => false
  end.

Inductive Level := DEBUG | INFO | WARNING | ERROR.

Inductive LogArg :=
| AStr (s : string)
| ARoles (roles : list string)
| AUser (u : DirectoryUser).

Record LogRecord := {
  level : Level;
  template : string;
  args : list LogArg;
}.

(** [load_users_and_groups(groups=..., extended_attributes=..., all_users=...)] *)
Record DirCall := {
  dc_groups : gset string;
  dc_extended_attributes : option (list string);
  dc_all_users : bool;
}.

Definition DirectoryConnector : Type := DirCall → outcome (list DirectoryUser).

(** The interface of [SignConnector], over the connector's own state. *)
Class SignConnector (C : Type) := {
  sign_groups : C → outcome (list string) * C;
  create_group : string → C → outcome unit * C;
  get_group : string → C → outcome string * C;
  get_users : C → outcome (list (string * SignUser)) * C;
  update_user : string → Profile → C → outcome unit * C;
  insert_user : Profile → C → outcome unit * C;
  deactivate_user_api : string → list (string * string) → C → outcome unit * C;
}.

Section World.
Context {C : Type}.

(** The mutable world of a run: every connector object (named by its key
    in [self.connectors]), the calls issued so far, the log, and
    [self.directory_user_by_user_key]. *)
Record World := {
  w_conn : string → C;
  w_calls : list (string * Call);
  w_dir_calls : list DirCall;
  w_log : list LogRecord;
  w_directory_user_by_user_key : list (string * DirectoryUser);
}.

Definition M (A : Type) : Type := World → result A * World.

Definition ret {A} (a : A) : M A := λ w, (Ok a, w).

Definition bind {A B} (m : M A) (k : A → M B) : M B :=
  λ w, match m w with
       | (Ok a, w') => k a w'
       | (Raise e, w') => (Raise e, w')
       end.

Definition raise {A} (e : exn) : M A := λ w, (Raise e, w).

(** [try: body except cls as e: handler(e)] *)
Definition try_except {A} (body : M A) (cls : exn → bool) (handler : exn → M A) : M A :=
  λ w, match body w with
       | (Ok a, w') => (Ok a, w')
       | (Raise e, w') => if cls e then handler e w' else (Raise e, w')
       end.

Definition log (lvl : Level) (tpl : string) (a : list LogArg) : M unit :=
  λ w, (Ok tt, {| w_conn := w_conn w; w_calls := w_calls w;
                  w_dir_calls := w_dir_calls w;
                  w_log := w_log w ++ [{| level := lvl; template := tpl; args := a |}];
                  w_directory_user_by_user_key := w_directory_user_by_user_key w |}).

(** A call on the connector object [h]: the call is recorded, the
    connector's state advances, a failure is raised. *)
Definition call {A} (h : string) (c : Call) (op : C → outcome A * C) : M A :=
  λ w, let '(r, s) := op (w_conn w h) in
       (match r with
        | Done a => Ok a
        | Failed msg => Raise (AssertionException msg)
        end,
        {| w_conn := λ k, if decide (k = h) then s else w_conn w k;
           w_calls := w_calls w ++ [(h, c)];
           w_dir_calls := w_dir_calls w;
           w_log := w_log w;
           w_directory_user_by_user_key := w_directory_user_by_user_key w |}).

Definition call_directory (dc : DirectoryConnector) (c : DirCall) : M (list DirectoryUser) :=
  λ w, (match dc c with
        | Done us => Ok us
        | Failed msg => Raise (AssertionException msg)
        end,
        {| w_conn := w_conn w; w_calls := w_calls w;
           w_dir_calls := w_dir_calls w ++ [c];
           w_log := w_log w;
           w_directory_user_by_user_key := w_directory_user_by_user_key w |}).

(** [for x in l: body(x)] *)
Fixpoint for_each {A} (l : list A) (body : A → M unit) : M unit :=
  match l with
  | [] => ret tt
  | x :: l' => bind (body x) (λ _, for_each l' body)
  end.
End World.

Arguments World C : clear implicits.
Arguments M C A : clear implicits.

#[global] Instance M_ret {C} : MRet (M C) := λ A, ret.
#[global] Instance M_bind {C} : MBind (M C) := λ A B k m, bind m k.

(** ** The engine *)

(** [AdobeGroup] of [user_sync.engine.umapi]: a parsed group reference. *)
Record AdobeGroup := {
  group_name : string;
  umapi_name : string;
}.

(** One entry of the [admin_roles] configuration list. *)
Record Mapping := {
  sign_role : option string;
  adobe_groups : option (list string);
}.

(** What the constructor reads from [caller_options]. *)
Record Config := {
  cfg_test_mode : bool;
  cfg_user_groups : option (list string);
  cfg_entitlement_groups : list string;
  cfg_identity_types : option (list string);
  cfg_admin_roles : option (list Mapping);
  cfg_sign_orgs : list string;               (* console_org of each entry *)
  cfg_create_new_users : bool;
  cfg_deactivate_sign_only_users : bool;
  cfg_directory_group_filter : option (list string);
  cfg_extended_attributes : option (list string);
  cfg_new_account_type : string;
}.

Record SignSyncEngine := {
  test_mode : bool;
  user_groups : gmap string (list string);
  entitlement_groups : gmap string (list string);
  identity_types : list string;
  admin_roles : gmap string (gmap string (gset string));
  connectors : list string;
  create_new_users : bool;
  deactivate_sign_only_users : bool;
  directory_group_filter : option (list string);
  extended_attributes : option (list string);
  new_account_type : string;
}.

Definition DEFAULT_GROUP_NAME : string := "default group".

(** Python compares [str] values by code point. *)
Definition str_le : relation string := λ a b, String.leb a b = true.

#[global] Instance str_le_dec a b : Decision (str_le a b).
Proof. unfold str_le. apply _. Defined.

(** [sorted(l)] on a list of strings *)
Definition sorted (l : list string) : list string := merge_sort str_le l.

(** [if isinstance(sign_roles, str): sign_roles = [sign_roles]] *)
Definition role_list (sign_roles : SignRoles) : list string :=
  match sign_roles with
  | RoleStr s => [s]
  | RoleList l => l
  end.

(** [roles_match], lines 109-113 *)
Definition roles_match (resolved_roles : list string) (sign_roles : SignRoles) : bool :=
  let sign_roles := role_list sign_roles in
  bool_decide (sorted resolved_roles = sorted sign_roles).

(** [resolve_new_roles], lines 115-123.  [list(roles)] enumerates the set
    in an order Python leaves unspecified; here it is [elements]. *)
Definition resolve_new_roles (umapi_user : DirectoryUser)
    (role_mapping : gmap string (gset string)) : list string :=
  let roles :=
    foldl (λ (roles : gset string) group,
             match role_mapping !! lower group with
             | None => roles
             | Some sign_roles => roles ∪ sign_roles
             end) ∅ (groups umapi_user) in
  if decide (roles = ∅) then ["NORMAL_USER"] else elements roles.

(** [should_sync], lines 125-136.  Python returns the empty intersection
    itself when it is empty; the callers only test the truth value, which
    is what this function returns. *)
Definition should_sync (self : SignSyncEngine) (umapi_user : DirectoryUser)
    (org_name : string) : bool :=
  bool_decide ((list_to_set (groups umapi_user) : gset string)
                 ∩ list_to_set (entitlement_groups self !!! org_name) ≠ ∅)
  && bool_decide (type umapi_user ∈ identity_types self).

(** Lines 89-97 of [update_sign_users]: the choice of the assignment group. *)
Definition assignment_group (self : SignSyncEngine) (directory_user : DirectoryUser)
    (org_name : string) : string :=
  match List.find (λ group, bool_decide (group ∈ groups directory_user))
                  (user_groups self !!! org_name) with
  | Some group => group
  | None => DEFAULT_GROUP_NAME
  end.

Section Parsing.
(** [AdobeGroup.create], [helper.normalize_string] and
    [identity_type.parse_identity_type] are imported by [sign.py] from
    modules outside it; the engine is stated over any such functions. *)
Variable AdobeGroup_create : string → AdobeGroup.
Variable normalize_string : option string → option string.
Variable parse_identity_type : option string → result (option string).

(** [_groupify], lines 138-144 *)
Definition _groupify (groups : list string) : gmap string (list string) :=
  foldl (λ (processed_groups : gmap string (list string)) g,
           let processed_group := AdobeGroup_create g in
           <[umapi_name processed_group :=
               (processed_groups !!! umapi_name processed_group)
                 ++ [lower (group_name processed_group)]]> processed_groups)
        ∅ groups.

(** Lines 160-167: one group of one mapping. *)
Definition add_admin_role (sign_role : string)
    (mapped_admin_roles : gmap string (gmap string (gset string))) (g : string)
    : gmap string (gmap string (gset string)) :=
  let group := AdobeGroup_create g in
  let group_name := lower (group_name group) in
  let org := default ∅ (mapped_admin_roles !! umapi_name group) in
  let cell := default ∅ (org !! group_name) in
  <[umapi_name group := <[group_name := cell ∪ {[sign_role]}]> org]> mapped_admin_roles.

Fixpoint admin_role_mapping_loop (admin_roles : list Mapping)
    (mapped_admin_roles : gmap string (gmap string (gset string)))
    : result (gmap string (gmap string (gset string))) :=
  match admin_roles with
  | [] => Ok mapped_admin_roles
  | mapping :: rest =>
      match sign_role mapping with
      | None => Raise (AssertionException "must define a Sign role in admin role mapping")
      | Some sign_role =>
          match adobe_groups mapping with
          | None | Some [] => admin_role_mapping_loop rest mapped_admin_roles
          | Some adobe_groups =>
              admin_role_mapping_loop rest
                (foldl (add_admin_role sign_role) mapped_admin_roles adobe_groups)
          end
      end
  end.

(** [_admin_role_mapping], lines 146-168 *)
Definition _admin_role_mapping (admin_roles : option (list Mapping))
    : result (gmap string (gmap string (gset string))) :=
  match admin_roles with
  | None => Ok ∅
  | Some admin_roles => admin_role_mapping_loop admin_roles ∅
  end.

(** [__init__], lines 30-58, as a function of the configuration. *)
Definition init (caller_options : Config) : result SignSyncEngine :=
  let user_groups := default [] (cfg_user_groups caller_options) in
  let identity_types :=
    default ["adobeID"; "enterpriseID"; "federatedID"]
            (cfg_identity_types caller_options) in
  match _admin_role_mapping (cfg_admin_roles caller_options) with
  | Raise e => Raise e
  | Ok admin_roles =>
      Ok {| test_mode := cfg_test_mode caller_options;
            user_groups := _groupify user_groups;
            entitlement_groups := _groupify (cfg_entitlement_groups caller_options);
            identity_types := identity_types;
            admin_roles := admin_roles;
            connectors :=
              Dict.keys (foldl (λ d org, Dict.set org tt d) [] (cfg_sign_orgs caller_options));
            create_new_users := cfg_create_new_users caller_options;
            deactivate_sign_only_users := cfg_deactivate_sign_only_users caller_options;
            directory_group_filter := cfg_directory_group_filter caller_options;
            extended_attributes := cfg_extended_attributes caller_options;
            new_account_type := cfg_new_account_type caller_options |}
  end.

(** The string [id_type + ',' + username + ',' + domain]. *)
Definition user_key (id_type username domain : string) : string :=
  id_type +:+ "," +:+ username +:+ "," +:+ domain.

(** [get_user_key], lines 212-238 *)
Definition get_user_key (id_type username domain email : option string)
    : result (option string) :=
  match parse_identity_type id_type with
  | Raise e => Raise e
  | Ok id_type =>
      let email := if truthy email then normalize_string email else None in
      let username :=
        if truthy (normalize_string username) then normalize_string username
        else email in
      let domain := normalize_string domain in
      if negb (truthy id_type) then Ok None
      else if negb (truthy username) then Ok None
      else
        let id_type := default "" id_type in
        let username := default "" username in
        if contains_char "@" username then Ok (Some (user_key id_type username ""))
        else if negb (truthy domain) then Ok None
        else Ok (Some (user_key id_type username (default "" domain)))
  end.
End Parsing.

Section Engine.
Context {C : Type} `{!SignConnector C}.
Variable normalize_string : option string → option string.
Variable parse_identity_type : option string → result (option string).

Definition lift_result {A} (r : result A) : M C A := λ w, (r, w).

(** [directory_user_by_user_key[user_key] = directory_user] *)
Definition store_directory_user (user_key : string) (directory_user : DirectoryUser) : M C unit :=
  λ w, (Ok tt, {| w_conn := w_conn w; w_calls := w_calls w;
                  w_dir_calls := w_dir_calls w; w_log := w_log w;
                  w_directory_user_by_user_key :=
                    Dict.set user_key directory_user (w_directory_user_by_user_key w) |}).

Definition read_directory_user_by_user_key : M C (list (string * DirectoryUser)) :=
  λ w, (Ok (w_directory_user_by_user_key w), w).

(** [get_identity_type_from_directory_user], lines 240-245 *)
Definition get_identity_type_from_directory_user (self : SignSyncEngine)
    (directory_user : DirectoryUser) : M C string :=
  match identity_type directory_user with
  | None =>
      let identity_type := new_account_type self in
      log WARNING "Found user with no identity type, using %s: %s"
          [AStr identity_type; AUser directory_user];;
      mret identity_type
  | Some identity_type => mret identity_type
  end.

(** [get_directory_user_key], lines 204-210 *)
Definition get_directory_user_key (self : SignSyncEngine)
    (directory_user : DirectoryUser) : M C (option string) :=
  id_type ← get_identity_type_from_directory_user self directory_user;
  lift_result (get_user_key normalize_string parse_identity_type (Some id_type)
                 (username directory_user) (domain directory_user)
                 (Some (email directory_user))).

(** [read_desired_user_groups], lines 170-202.  The method always returns
    the dictionary, never [None]; the option type keeps the test that
    [run] makes on the returned value. *)
Definition read_desired_user_groups (self : SignSyncEngine)
    (mappings : gmap string (list AdobeGroup)) (directory_connector : DirectoryConnector)
    : M C (option (list (string * DirectoryUser))) :=
  log DEBUG "Building work list..." [];;
  let directory_group_filter : option (gset string) :=
    list_to_set <$> directory_group_filter self in
  let directory_groups : gset string :=
    match directory_group_filter with
    | Some f => dom mappings ∪ f
    | None => dom mappings
    end in
  directory_users ← call_directory directory_connector
    {| dc_groups := directory_groups;
       dc_extended_attributes := extended_attributes self;
       dc_all_users := bool_decide (directory_group_filter = None) |};
  for_each directory_users (λ directory_user,
    user_key ← get_directory_user_key self directory_user;
    if negb (truthy user_key) then
      log WARNING "Ignoring directory user with empty user key: %s" [AUser directory_user]
    else
      store_directory_user (default "" user_key) directory_user);;
  directory_user_by_user_key ← read_directory_user_by_user_key;
  mret (Some directory_user_by_user_key).

(** [update_existing_users], lines 247-263 *)
Definition update_existing_users (sign_connector : string) (sign_user : SignUser)
    (directory_user : DirectoryUser) (group_id : string) (user_roles : list string)
    (assignment_group : string) : M C unit :=
  let update_data :=
    {| p_email := su_email sign_user;
       p_firstName := su_firstName sign_user;
       p_groupId := group_id;
       p_lastName := su_lastName sign_user;
       p_roles := user_roles |} in
  if bool_decide (lower (su_group sign_user) = assignment_group)
     && roles_match user_roles (su_roles sign_user)
  then
    log DEBUG "skipping Sign update for '{}' -- no updates needed"
        [AStr (email directory_user)]
  else
    try_except
      (call sign_connector (CallUpdateUser (su_userId sign_user) update_data)
            (update_user (su_userId sign_user) update_data);;
       log INFO "Updated Sign user '{}', Group: '{}', Roles: {}"
           [AStr (email directory_user); AStr assignment_group; ARoles (p_roles update_data)])
      is_AssertionError
      (λ e, log ERROR "Error updating user {}" [AStr (exn_message e)]).

(** [insert_new_users], lines 265-288 *)
Definition insert_new_users (sign_connector : string) (directory_user : DirectoryUser)
    (user_roles : list string) (group_id : string) (assignment_group : string) : M C unit :=
  let insert_data :=
    {| p_email := email directory_user;
       p_firstName := firstname directory_user;
       p_groupId := group_id;
       p_lastName := lastname directory_user;
       p_roles := user_roles |} in
  try_except
    (call sign_connector (CallInsertUser insert_data) (insert_user insert_data);;
     log INFO "Inserted Sign user '{}', Group: '{}', Roles: {}"
         [AStr (email directory_user); AStr assignment_group; ARoles (p_roles insert_data)])
    is_AssertionException
    (λ e, log ERROR "{}" [AStr (exn_message e)]).

(** [deactivate_user], lines 299-307 *)
Definition deactivate_user (sign_connector : string) (sign_user : SignUser) : M C unit :=
  let deactivation_data := [("userStatus", "INACTIVE")] in
  try_except
    (call sign_connector (CallDeactivateUser (su_userId sign_user) deactivation_data)
          (deactivate_user_api (su_userId sign_user) deactivation_data))
    is_AssertionException
    (λ e, log ERROR "Error deactivating user {}, {}"
              [AStr (su_email sign_user); AStr (exn_message e)]).

(** The body of the loop of [update_sign_users], lines 85-107. *)
Definition update_sign_user (self : SignSyncEngine) (sign_connector : string)
    (org_name : string) (sign_users : list (string * SignUser))
    (directory_user : DirectoryUser) : M C unit :=
  let sign_user := Dict.get (email directory_user) sign_users in
  if negb (should_sync self directory_user org_name) then mret tt
  else
    let assignment_group := assignment_group self directory_user org_name in
    group_id ← call sign_connector (CallGetGroup assignment_group) (get_group assignment_group);
    let admin_roles := default ∅ (admin_roles self !! org_name) in
    let user_roles := resolve_new_roles directory_user admin_roles in
    (if create_new_users self && bool_decide (sign_user = None) then
       insert_new_users sign_connector directory_user user_roles group_id assignment_group
     else mret tt);;
    match sign_user with
    | None => mret tt
    | Some sign_user =>
        update_existing_users sign_connector sign_user directory_user group_id
                              user_roles assignment_group
    end.

(** [update_sign_users], lines 82-107 *)
Definition update_sign_users (self : SignSyncEngine)
    (directory_users : list (string * DirectoryUser)) (sign_connector : string)
    (org_name : string) : M C unit :=
  sign_users ← call sign_connector CallGetUsers get_users;
  for_each (Dict.values directory_users)
           (update_sign_user self sign_connector org_name sign_users).

(** [deactivate_sign_users], lines 290-297 *)
Definition deactivate_sign_users (directory_users : list (string * DirectoryUser))
    (sign_connector : string) : M C unit :=
  sign_users ← call sign_connector CallGetUsers get_users;
  let director_users_emails :=
    (λ directory_user, lower (email directory_user)) <$> Dict.values directory_users in
  for_each (Dict.values sign_users) (λ sign_user,
    if negb (bool_decide (lower (su_email sign_user) ∈ director_users_emails)) then
      deactivate_user sign_connector sign_user
    else mret tt).

(** [run], lines 60-80.  Each connector object is named by its key in
    [self.connectors]; the new groups are visited in the order of
    [elements], Python leaving the order of a set unspecified. *)
Definition run (self : SignSyncEngine) (directory_groups : gmap string (list AdobeGroup))
    (directory_connector : DirectoryConnector) : M C unit :=
  if test_mode self then
    log INFO "Sign Sync disabled in test mode" []
  else
    directory_users ← read_desired_user_groups self directory_groups directory_connector;
    match directory_users with
    | None => raise (AssertionException "Error retrieving users from directory")
    | Some directory_users =>
        for_each (connectors self) (λ org_name,
          let sign_connector := org_name in
          existing_groups ← call sign_connector CallSignGroups sign_groups;
          for_each (elements ((list_to_set (user_groups self !!! org_name) : gset string)
                                ∖ list_to_set existing_groups))
                   (λ new_group,
                      log INFO "Creating new Sign group: {}" [AStr new_group];;
                      call sign_connector (CallCreateGroup new_group) (create_group new_group));;
          update_sign_users self directory_users sign_connector org_name;;
          if deactivate_sign_only_users self then
            deactivate_sign_users directory_users sign_connector
          else mret tt)
    end.
End Engine.

(** The role-mapping tables of interest: every cell holds at least one role. *)
Definition cells_nonempty (t : gmap string (gmap string (gset string))) : Prop :=
  ∀ org m g sign_roles, t !! org = Some m → m !! g = Some sign_roles → sign_roles ≠ ∅.

(** [emits P m]: whatever the world, running [m] only appends calls to the
    record of calls, and each call it appends satisfies [P]. *)
Definition emits {C A : Type} (P : string * Call → Prop) (m : M C A) : Prop :=
  ∀ w, ∃ new, w_calls (m w).2 = w_calls w ++ new ∧ Forall P new.

(** The value that [get_directory_user_key] returns for a directory user;
    besides computing it, the method only logs. *)
Definition directory_user_key (normalize_string : option string → option string)
    (parse_identity_type : option string → result (option string))
    (self : SignSyncEngine) (directory_user : DirectoryUser) : result (option string) :=
  get_user_key normalize_string parse_identity_type
    (Some (default (new_account_type self) (identity_type directory_user)))
    (username directory_user) (domain directory_user) (Some (email directory_user)).

(** What one turn of the loop of [read_desired_user_groups], lines 190-195,
    does to [directory_user_by_user_key]. *)
Definition admit_directory_user (normalize_string : option string → option string)
    (parse_identity_type : option string → result (option string))
    (self : SignSyncEngine) (directory_user_by_user_key : list (string * DirectoryUser))
    (directory_user : DirectoryUser) : list (string * DirectoryUser) :=
  match directory_user_key normalize_string parse_identity_type self directory_user with
  | Ok (Some (String c k)) =>
      Dict.set (String c k) directory_user directory_user_by_user_key
  | _ => directory_user_by_user_key
  end.

(** [preserves R m]: whatever the world and whatever the outcome, the world
    that [m] leaves is related by [R] to the world it started in. *)
Definition preserves {C A : Type} (R : relation (World C)) (m : M C A) : Prop :=
  ∀ w, R w (m w).2.

(** Nothing changed but, possibly, the connector [h], the record of calls
    and the log. *)
Definition same_except {C : Type} (h : string) : relation (World C) :=
  λ w w', (∀ k, k ≠ h → w_conn w' k = w_conn w k)
          ∧ w_dir_calls w' = w_dir_calls w
          ∧ w_directory_user_by_user_key w' = w_directory_user_by_user_key w.

(** Nothing changed but, possibly, [directory_user_by_user_key] and the log. *)
Definition same_consoles {C : Type} : relation (World C) :=
  λ w w', w_conn w' = w_conn w ∧ w_calls w' = w_calls w
          ∧ w_dir_calls w' = w_dir_calls w.

(** The directory has not been read again and [directory_user_by_user_key]
    is as it was. *)
Definition same_directory {C : Type} : relation (World C) :=
  λ w w', w_dir_calls w' = w_dir_calls w
          ∧ w_directory_user_by_user_key w' = w_directory_user_by_user_key w.

(** ** Collaborators used to run the engine on concrete inputs *)

Module Model.
(** Modelled from the spec: [AdobeGroup.create] (in [user_sync.engine.umapi],
    not part of [sign.py]).  The raw string is either [org::group] or a bare
    [group]; a bare group belongs to the default organization, named by the
    empty string here.  The group name is not case-normalized. *)
Fixpoint split_org (s : string) : option (string * string) :=
  match s with
  | EmptyString => None
  | String c s' =>
      match c, s' with
      | ":"%char, String ":"%char rest => Some (EmptyString, rest)
      | _, _ =>
          match split_org s' with
          | Some (org, grp) => Some (String c org, grp)
          | None => None
          end
      end
  end.

Definition AdobeGroup_create (g : string) : AdobeGroup :=
  match split_org g with
  | Some (org, grp) => {| group_name := grp; umapi_name := org |}
  | None => {| group_name := g; umapi_name := "" |}
  end.

Definition is_space (c : ascii) : bool :=
  let n := N_of_ascii c in ((n =? 32) || ((9 <=? n) && (n <=? 13)))%N.

Fixpoint lstrip (l : list ascii) : list ascii :=
  match l with
  | c :: l' => if is_space c then lstrip l' else l
  | [] => []
  end.

Definition strip (s : string) : string :=
  string_of_list_ascii (rev (lstrip (rev (lstrip (list_ascii_of_string s))))).

(** Modelled from the spec: [helper.normalize_string] (not part of
    [sign.py]): trim, then fold case; an absent value stays absent. *)
Definition normalize_string (s : option string) : option string :=
  (λ s, lower (strip s)) <$> s.

(** Modelled from the spec: [identity_type.parse_identity_type] (not part
    of [sign.py]): the value is parsed against the fixed list of the three
    identity types; an absent value stays absent, an unparsable one fails. *)
Definition parse_identity_type (value : option string) : result (option string) :=
  match normalize_string value with
  | None => Ok None
  | Some v =>
      if decide (v = "adobeid") then Ok (Some "adobeID")
      else if decide (v = "enterpriseid") then Ok (Some "enterpriseID")
      else if decide (v = "federatedid") then Ok (Some "federatedID")
      else Raise (AssertionException "Unrecognized identity type")
  end.

(** An in-memory Sign console.  Group ids are the group names; a user is
    listed under its email; a create, update or deactivate request for an
    email or user id in [refused] is rejected. *)
Record Console := {
  con_groups : list (string * string);
  con_users : list (string * SignUser);
  refused : list string;
}.

Definition with_users (c : Console) (us : list (string * SignUser)) : Console :=
  {| con_groups := con_groups c; con_users := us; refused := refused c |}.

Definition new_user (data : Profile) : SignUser :=
  {| su_email := p_email data; su_firstName := p_firstName data;
     su_lastName := p_lastName data; su_userId := "id:" +:+ p_email data;
     su_group := p_groupId data; su_roles := RoleList (p_roles data) |}.

Definition apply_update (uid : string) (data : Profile) (u : SignUser) : SignUser :=
  if decide (su_userId u = uid) then
    {| su_email := su_email u; su_firstName := p_firstName data;
       su_lastName := p_lastName data; su_userId := uid;
       su_group := p_groupId data; su_roles := RoleList (p_roles data) |}
  else u.

#[global] Instance console_connector : SignConnector Console := {|
  sign_groups c := (Done (Dict.keys (con_groups c)), c);
  create_group name c :=
    (Done tt, {| con_groups := Dict.set name name (con_groups c);
                 con_users := con_users c; refused := refused c |});
  get_group name c :=
    (match Dict.get name (con_groups c) with
     | Some gid => Done gid
     | None => Failed ("no such group: " +:+ name)
     end, c);
  get_users c := (Done (con_users c), c);
  update_user uid data c :=
    if bool_decide (uid ∈ refused c) then (Failed ("cannot update " +:+ uid), c)
    else (Done tt, with_users c (prod_map id (apply_update uid data) <$> con_users c));
  insert_user data c :=
    if bool_decide (p_email data ∈ refused c) then (Failed ("cannot insert " +:+ p_email data), c)
    else (Done tt, with_users c (Dict.set (p_email data) (new_user data) (con_users c)));
  deactivate_user_api uid data c :=
    if bool_decide (uid ∈ refused c) then (Failed ("cannot deactivate " +:+ uid), c)
    else (Done tt, with_users c (filter (λ kv, su_userId kv.2 ≠ uid) (con_users c)));
|}.

Definition world0 (consoles : string → Console) : World Console :=
  {| w_conn := consoles; w_calls := []; w_dir_calls := []; w_log := [];
     w_directory_user_by_user_key := [] |}.

(** A console that cannot be reached: every request fails. *)
Inductive Offline := offline.

#[global] Instance offline_connector : SignConnector Offline := {|
  sign_groups c := (Failed "offline", c);
  create_group name c := (Failed "offline", c);
  get_group name c := (Failed "offline", c);
  get_users c := (Failed "offline", c);
  update_user uid data c := (Failed "offline", c);
  insert_user data c := (Failed "offline", c);
  deactivate_user_api uid data c := (Failed "offline", c);
|}.

Definition offline_world : World Offline :=
  {| w_conn := λ _, offline; w_calls := []; w_dir_calls := []; w_log := [];
     w_directory_user_by_user_key := [] |}.
End Model.

(** ** Concrete inputs *)

Module Scenario.
Definition directory_user (mail : string) (typ : string) (grps : list string)
    : DirectoryUser :=
  {| email := mail; firstname := "First"; lastname := "Last";
     username := Some mail; domain := None;
     identity_type := Some typ; type := typ; groups := grps |}.

Definition sign_user (mail uid grp : string) (rls : SignRoles) : SignUser :=
  {| su_email := mail; su_firstName := "First"; su_lastName := "Last";
     su_userId := uid; su_group := grp; su_roles := rls |}.

(** A console with the two users of the deactivation scenario. *)
Definition roster : list (string * SignUser) :=
  [("a@x.com", sign_user "a@x.com" "id-a" "Finance" (RoleStr "NORMAL_USER"));
   ("b@x.com", sign_user "b@x.com" "id-b" "Finance" (RoleList ["NORMAL_USER"]))].

Definition console (rejected : list string) : Model.Console :=
  {| Model.con_groups :=
     [("default group", "default group"); ("finance", "finance"); ("legal", "legal")];
     Model.con_users := roster;
     Model.refused := rejected |}.

(** A directory snapshot holding only the first of them, under an email
    spelled with capitals. *)
Definition snapshot : list (string * DirectoryUser) :=
  [("federatedID,a@x.com,", directory_user "A@X.com" "federatedID" ["Everyone"])].

(** Two [admin_roles] entries that share a directory group. *)
Definition admin_roles_config : option (list Mapping) :=
  Some [{| sign_role := Some "ACCOUNT_ADMIN"; adobe_groups := Some ["Legal"] |};
        {| sign_role := Some "GROUP_ADMIN"; adobe_groups := Some ["legal"; "org2::Sales"] |};
        {| sign_role := Some "UNUSED"; adobe_groups := None |}].

Definition admin_roles_table : gmap string (gmap string (gset string)) :=
  match _admin_role_mapping Model.AdobeGroup_create admin_roles_config with
  | Ok t => t
  | Raise _ => ∅
  end.

(** The engine of an organization (named by the empty string) whose
    candidate groups are Legal and Finance and whose entitlement group is
    Everyone. *)
Definition config (test : bool) : Config :=
  {| cfg_test_mode := test;
     cfg_user_groups := Some ["Legal"; "Finance"];
     cfg_entitlement_groups := ["Everyone"];
     cfg_identity_types := None;
     cfg_admin_roles := admin_roles_config;
     cfg_sign_orgs := [""];
     cfg_create_new_users := true;
     cfg_deactivate_sign_only_users := true;
     cfg_directory_group_filter := None;
     cfg_extended_attributes := None;
     cfg_new_account_type := "federatedID" |}.

Definition engine (test : bool) : SignSyncEngine :=
  {| test_mode := test;
     user_groups := _groupify Model.AdobeGroup_create ["Legal"; "Finance"];
     entitlement_groups := _groupify Model.AdobeGroup_create ["Everyone"];
     identity_types := ["adobeID"; "enterpriseID"; "federatedID"];
     admin_roles := admin_roles_table;
     connectors := [""];
     create_new_users := true;
     deactivate_sign_only_users := true;
     directory_group_filter := None;
     extended_attributes := None;
     new_account_type := "federatedID" |}.

(** A directory snapshot with one eligible user the console does not list
    and one it lists. *)
Definition newcomers : list (string * DirectoryUser) :=
  [("federatedID,n@x.com,", directory_user "n@x.com" "federatedID" ["everyone"]);
   ("federatedID,b@x.com,", directory_user "b@x.com" "federatedID" ["everyone"; "legal"])].

(** A directory whose only user belongs to no entitlement group. *)
Definition outsider : DirectoryUser := directory_user "A@X.com" "federatedID" ["Sales"].

Definition directory : DirectoryConnector := λ _, Done [outsider].

(** The user of the first scenario of the specification: a member of the
    directory groups Legal and Everyone. *)
Definition legal_user : DirectoryUser :=
  directory_user "l@x.com" "federatedID" ["Legal"; "Everyone"].

(** A directory snapshot of the two users the console lists, both eligible
    and both due for a move to the default group. *)
Definition both_listed : list (string * DirectoryUser) :=
  [("federatedID,a@x.com,", directory_user "a@x.com" "federatedID" ["everyone"]);
   ("federatedID,b@x.com,", directory_user "b@x.com" "federatedID" ["everyone"])].

Definition directory_of_both : DirectoryConnector := λ _, Done (Dict.values both_listed).

(** A directory that returns, between two regular users, one whose identity
    type is not one of the three known types. *)
Definition stranger : DirectoryUser :=
  {| email := "m@x.com"; firstname := "First"; lastname := "Last";
     username := Some "m@x.com"; domain := None;
     identity_type := Some "martianID"; type := "martianID"; groups := ["everyone"] |}.

Definition directory_with_stranger : DirectoryConnector :=
  λ _, Done ([directory_user "a@x.com" "federatedID" ["everyone"]]
               ++ stranger :: [directory_user "b@x.com" "federatedID" ["everyone"]]).

(** Two directory users with the same username and domain, hence the same
    key, and different emails; the email of the first is the one of the
    first user of the roster. *)
Definition bob_first : DirectoryUser :=
  {| email := "a@x.com"; firstname := "First"; lastname := "Last";
     username := Some "bob"; domain := Some "x.com";
     identity_type := Some "federatedID"; type := "federatedID";
     groups := ["everyone"] |}.

Definition bob_second : DirectoryUser :=
  {| email := "c@x.com"; firstname := "First"; lastname := "Last";
     username := Some "bob"; domain := Some "x.com";
     identity_type := Some "federatedID"; type := "federatedID";
     groups := ["everyone"] |}.

Definition directory_of_bobs : DirectoryConnector := λ _, Done [bob_first; bob_second].
End Scenario.

(** * Properties *)

(** ** Strings: case folding and order *)

Lemma lower_ascii_idemp c : lower_ascii (lower_ascii c) = lower_ascii c.
Proof. destruct c as [[] [] [] [] [] [] [] []]; reflexivity. Qed.

Lemma lower_idemp s : lower (lower s) = lower s.
Proof. induction s as [|c s IH]; simpl; [done|]. by rewrite lower_ascii_idemp, IH. Qed.

Lemma ascii_compare_N a b : Ascii.compare a b = (N_of_ascii a ?= N_of_ascii b)%N.
Proof. reflexivity. Qed.

Lemma string_compare_le_trans a b c :
  String.compare a b ≠ Gt → String.compare b c ≠ Gt → String.compare a c ≠ Gt.
Proof.
  revert b c. induction a as [|x a IH]; intros [|y b] [|z c]; simpl; try done.
  rewrite !ascii_compare_N.
  destruct (N.compare_spec (N_of_ascii x) (N_of_ascii y)) as [Exy|Lxy|Gxy]; [| |done].
  - rewrite Exy. destruct (N_of_ascii y ?= N_of_ascii z)%N; [apply IH|done|done].
  - intros _.
    destruct (N.compare_spec (N_of_ascii y) (N_of_ascii z)) as [Eyz|Lyz|Gyz]; [| |done].
    + intros _. rewrite <- Eyz. by rewrite (proj2 (N.compare_lt_iff _ _) Lxy).
    + intros _. by rewrite (proj2 (N.compare_lt_iff _ _) (N.lt_trans _ _ _ Lxy Lyz)).
Qed.

Lemma str_le_not_gt a b : str_le a b ↔ String.compare a b ≠ Gt.
Proof. unfold str_le, String.leb. destruct (String.compare a b); naive_solver. Qed.

#[global] Instance str_le_trans : Transitive str_le.
Proof. intros a b c. rewrite !str_le_not_gt. apply string_compare_le_trans. Qed.

#[global] Instance str_le_antisymm : AntiSymm (=) str_le.
Proof. intros a b. apply String.leb_antisym. Qed.

#[global] Instance str_le_total : Total str_le.
Proof. intros a b. apply String.leb_total. Qed.

Lemma sorted_Permutation l : sorted l ≡ₚ l.
Proof. apply merge_sort_Permutation. Qed.

Lemma sorted_eq_iff l1 l2 : sorted l1 = sorted l2 ↔ l1 ≡ₚ l2.
Proof.
  split.
  - intros E. rewrite <- (sorted_Permutation l1), E. apply sorted_Permutation.
  - intros P. apply (Sorted_unique str_le); [apply Sorted_merge_sort, _..|].
    by rewrite !sorted_Permutation.
Qed.

Lemma roles_match_iff resolved_roles sign_roles :
  roles_match resolved_roles sign_roles = true ↔ resolved_roles ≡ₚ role_list sign_roles.
Proof.
  unfold roles_match. by rewrite bool_decide_eq_true, sorted_eq_iff.
Qed.

(** ** Identity keys *)

Section GetUserKey.
Variable normalize_string : option string → option string.
Variable parse_identity_type : option string → result (option string).

(** A normalized username that holds an "@" is never empty, so it is the
    username of the key, and the domain of the key is emptied. *)
Lemma get_user_key_email_shaped id_type username domain email t u :
  parse_identity_type id_type = Ok (Some t) → t ≠ "" →
  normalize_string username = Some u → contains_char "@" u = true →
  get_user_key normalize_string parse_identity_type id_type username domain email
  = Ok (Some (user_key t u "")).
Proof.
  intros Hp Ht Hu Hat. unfold get_user_key. rewrite Hp, Hu.
  destruct u as [|c u]; [done|]. destruct t as [|c' t]; [done|].
  cbn [truthy negb default from_option id]. by rewrite Hat.
Qed.

(** C8, as the code has it.  The identity type is parsed first, and an
    identity type that the parser refuses makes the construction end with
    the parser's exception, whatever the other arguments.  For an identity
    type that the parser accepts: whenever the normalized username contains
    an "@", the key is [id_type,username,] with an empty domain component,
    whatever the domain argument; and the construction returns [None],
    without raising, when the identity type is missing, when both username
    and email are absent, and when the username it works with (the
    normalized username, or else the normalized email) has no "@" and the
    domain is absent.  The two imported helpers are assumed to map an absent
    value to an absent value. *)
Theorem get_user_key_spec :
  normalize_string None = None →
  parse_identity_type None = Ok None →
  (∀ id_type username domain email t u,
      parse_identity_type id_type = Ok (Some t) → t ≠ "" →
      normalize_string username = Some u → contains_char "@" u = true →
      get_user_key normalize_string parse_identity_type id_type username domain email
      = Ok (Some (user_key t u "")))
  ∧ (∀ username domain email,
        get_user_key normalize_string parse_identity_type None username domain email
        = Ok None)
  ∧ (∀ id_type t domain,
        parse_identity_type id_type = Ok t →
        get_user_key normalize_string parse_identity_type id_type None domain None
        = Ok None)
  ∧ (∀ id_type t username email,
        parse_identity_type id_type = Ok t →
        contains_char "@"
          (default "" (if truthy (normalize_string username)
                       then normalize_string username
                       else if truthy email then normalize_string email else None))
        = false →
        get_user_key normalize_string parse_identity_type id_type username None email
        = Ok None)
  ∧ (∀ id_type username domain email e,
        parse_identity_type id_type = Raise e →
        get_user_key normalize_string parse_identity_type id_type username domain email
        = Raise e).
Proof.
  intros Hn Hp. split; [|split; [|split; [|split]]];
    [| | | |intros id_type username domain email e He; unfold get_user_key; by rewrite He].
  - intros. by eapply get_user_key_email_shaped.
  - intros. unfold get_user_key. by rewrite Hp.
  - intros id_type t domain Ht. unfold get_user_key. rewrite Ht, Hn. simpl.
    by destruct (truthy t).
  - intros id_type t username email Ht Hat. unfold get_user_key.
    rewrite Ht, Hn. simpl truthy at 3. cbn [negb].
    destruct (truthy t); [|done]. cbn [negb].
    destruct (truthy (if truthy (normalize_string username) then _ else _)); [|done].
    cbn [negb]. by rewrite Hat.
Qed.
End GetUserKey.

Lemma get_user_key_spec_witness :
  get_user_key Model.normalize_string Model.parse_identity_type
    (Some "federatedID") (Some " Bob@X.com") (Some "y.com") (Some "bob@z.com")
  = Ok (Some "federatedID,bob@x.com,")
  ∧ get_user_key Model.normalize_string Model.parse_identity_type
      None (Some "bob") (Some "x.com") (Some "bob@x.com") = Ok None
  ∧ get_user_key Model.normalize_string Model.parse_identity_type
      (Some "enterpriseID") None (Some "x.com") None = Ok None
  ∧ get_user_key Model.normalize_string Model.parse_identity_type
      (Some "adobeID") (Some "bob") None (Some "bob@x.com") = Ok None.
Proof.
  destruct (get_user_key_spec Model.normalize_string Model.parse_identity_type
              eq_refl eq_refl) as (H1 & H2 & H3 & H4 & _).
  split; [|split; [|split]].
  - apply (H1 (Some "federatedID") (Some " Bob@X.com") (Some "y.com") (Some "bob@z.com")
              "federatedID" "bob@x.com"); [reflexivity|discriminate|reflexivity|reflexivity].
  - apply H2.
  - apply (H3 (Some "enterpriseID") (Some "enterpriseID")). reflexivity.
  - apply (H4 (Some "adobeID") (Some "adobeID")); reflexivity.
Defined.

(** The claim that the construction returns [None], not an exception, for
    every input without username and email, or without "@" and domain, and
    a key for every username with an "@", fails on an identity type that is
    not one of the known types: the parsing of line 225 raises, with no
    username and email, and with an email-shaped username alike. *)
Lemma get_user_key_counterexample :
  get_user_key Model.normalize_string Model.parse_identity_type
    (Some "martianID") None (Some "x.com") None
  = Raise (AssertionException "Unrecognized identity type")
  ∧ get_user_key Model.normalize_string Model.parse_identity_type
      (Some "martianID") None (Some "x.com") None ≠ Ok None
  ∧ get_user_key Model.normalize_string Model.parse_identity_type
      (Some "martianID") (Some "bob") None None ≠ Ok None
  ∧ ∀ k, get_user_key Model.normalize_string Model.parse_identity_type
           (Some "martianID") (Some "bob@x.com") (Some "x.com") None ≠ Ok (Some k).
Proof. repeat split; try (vm_compute; reflexivity); try intros k; vm_compute; discriminate. Qed.

(** ** Running the monad *)

Section Traces.
Context {C : Type} `{!SignConnector C}.

Lemma run_bind {A B} (m : M C A) (k : A → M C B) w :
  (m ≫= k) w = match m w with
                | (Ok a, w') => k a w'
                | (Raise e, w') => (Raise e, w')
                end.
Proof. reflexivity. Qed.

Lemma run_ret {A} (a : A) (w : World C) : mret (M := M C) a w = (Ok a, w).
Proof. reflexivity. Qed.

(** [deactivate_user] never raises: the call is recorded and a failure
    only adds an error record to the log. *)
Lemma deactivate_user_recovers sign_connector sign_user (w : World C) :
  ∃ w', deactivate_user sign_connector sign_user w = (Ok tt, w')
        ∧ w_calls w' = w_calls w
            ++ [(sign_connector,
                 CallDeactivateUser (su_userId sign_user) [("userStatus", "INACTIVE")])]
        ∧ w_dir_calls w' = w_dir_calls w
        ∧ w_directory_user_by_user_key w' = w_directory_user_by_user_key w.
Proof.
  unfold deactivate_user, try_except, call.
  destruct (deactivate_user_api _ _ _) as [[[]|msg] s]; simpl; eauto.
Qed.

Lemma deactivate_loop_calls sign_connector (emails : list string) sign_users (w : World C) :
  ∃ w',
    for_each sign_users (λ sign_user,
      if negb (bool_decide (lower (su_email sign_user) ∈ emails)) then
        deactivate_user sign_connector sign_user
      else mret tt) w = (Ok tt, w')
    ∧ w_calls w' = w_calls w
        ++ ((λ sign_user,
               (sign_connector,
                CallDeactivateUser (su_userId sign_user) [("userStatus", "INACTIVE")]))
              <$> filter (λ sign_user, lower (su_email sign_user) ∉ emails) sign_users).
Proof.
  revert w. induction sign_users as [|su sus IH]; intros w.
  - exists w. split; [done|]. by rewrite app_nil_r.
  - cbn [for_each]. unfold bind. rewrite filter_cons.
    destruct (decide (lower (su_email su) ∈ emails)) as [Hin|Hout].
    + rewrite bool_decide_eq_true_2 by done. cbn [negb]. rewrite run_ret.
      rewrite decide_False by tauto. apply IH.
    + rewrite bool_decide_eq_false_2 by done. cbn [negb].
      destruct (deactivate_user_recovers sign_connector su w) as (w1 & -> & Hc & _).
      destruct (IH w1) as (w' & Hrun & Hc').
      exists w'. split; [done|].
      rewrite decide_True by done. rewrite Hc', Hc, fmap_cons, <- app_assoc. done.
Qed.

(** C4.  Once the target organization's user list has been read, the
    deactivation sweep completes and issues, in the order of that list,
    one deactivate call for each target user whose lower-cased email is
    not among the lower-cased directory-user emails, and no other call:
    a target user whose lower-cased email is among them gets none. *)
Theorem deactivate_sign_users_calls directory_users sign_connector
    (w : World C) sign_users s :
  get_users (w_conn w sign_connector) = (Done sign_users, s) →
  ∃ w',
    deactivate_sign_users directory_users sign_connector w = (Ok tt, w')
    ∧ w_calls w' = w_calls w ++ (sign_connector, CallGetUsers)
        :: ((λ sign_user,
               (sign_connector,
                CallDeactivateUser (su_userId sign_user) [("userStatus", "INACTIVE")]))
              <$> filter (λ sign_user,
                            lower (su_email sign_user)
                              ∉ (λ directory_user, lower (email directory_user))
                                  <$> Dict.values directory_users)
                         (Dict.values sign_users)).
Proof.
  intros Hget. unfold deactivate_sign_users. rewrite run_bind.
  unfold call at 1. rewrite Hget.
  match goal with |- context [for_each ?l ?f ?w0] =>
    destruct (deactivate_loop_calls sign_connector
                ((λ directory_user, lower (email directory_user))
                   <$> Dict.values directory_users)
                (Dict.values sign_users) w0) as (w' & Hrun & Hc)
  end.
  exists w'. split; [exact Hrun|].
  rewrite Hc. cbn [w_calls]. by rewrite <- app_assoc.
Qed.

End Traces.

Lemma deactivate_sign_users_calls_witness :
  get_users (Scenario.console []) = (Done Scenario.roster, Scenario.console [])
  ∧ ∃ w',
      deactivate_sign_users Scenario.snapshot "" (Model.world0 (λ _, Scenario.console []))
      = (Ok tt, w')
      ∧ w_calls w' = [("", CallGetUsers);
                      ("", CallDeactivateUser "id-b" [("userStatus", "INACTIVE")])].
Proof.
  split; [reflexivity|].
  destruct (deactivate_sign_users_calls Scenario.snapshot ""
              (Model.world0 (λ _, Scenario.console [])) Scenario.roster
              (Scenario.console [])) as (w' & Hrun & Hcalls); [reflexivity|].
  exists w'. split; [exact Hrun|]. rewrite Hcalls. vm_compute. reflexivity.
Defined.

(** ** Role resolution *)

(** The roles accumulated by the loop of [resolve_new_roles]. *)
Lemma elem_of_collected_roles (role_mapping : gmap string (gset string))
    (groups : list string) (acc : gset string) r :
  r ∈ foldl (λ (roles : gset string) group,
               match role_mapping !! lower group with
               | None => roles
               | Some sign_roles => roles ∪ sign_roles
               end) acc groups
  ↔ r ∈ acc ∨ ∃ g sign_roles,
        g ∈ groups ∧ role_mapping !! lower g = Some sign_roles ∧ r ∈ sign_roles.
Proof.
  revert acc. induction groups as [|g groups IH]; intros acc; simpl.
  - split; [by left|]. intros [?|(g & sr & Hg & _)]; [done|]. by apply elem_of_nil in Hg.
  - rewrite IH. split.
    + intros [Hacc|(g' & sr & Hg' & Hm & Hr)].
      * destruct (role_mapping !! lower g) as [sr|] eqn:Hm; [|by left].
        apply elem_of_union in Hacc as [?|?]; [by left|].
        right. exists g, sr. split; [left|done].
      * right. exists g', sr. split; [by right|done].
    + intros [Hacc|(g' & sr & Hg' & Hm & Hr)].
      * left. destruct (role_mapping !! lower g); [by apply elem_of_union_l|done].
      * apply elem_of_cons in Hg' as [->|Hg'].
        -- left. rewrite Hm. by apply elem_of_union_r.
        -- right. by exists g', sr.
Qed.

Lemma resolve_new_roles_nonempty umapi_user role_mapping :
  resolve_new_roles umapi_user role_mapping ≠ [].
Proof.
  unfold resolve_new_roles. case_decide as Hroles; [done|].
  intros Hnil. by apply elements_empty_inv, leibniz_equiv in Hnil.
Qed.

Lemma resolve_new_roles_default umapi_user (role_mapping : gmap string (gset string)) :
  (∀ g, g ∈ groups umapi_user → role_mapping !! lower g = None) →
  resolve_new_roles umapi_user role_mapping = ["NORMAL_USER"].
Proof.
  intros Hnone. unfold resolve_new_roles. rewrite decide_True; [done|].
  apply set_eq. intros r. rewrite elem_of_collected_roles. split.
  - intros [?|(g & sr & Hg & Hm & _)]; [done|]. by rewrite (Hnone g Hg) in Hm.
  - set_solver.
Qed.

Lemma resolve_new_roles_union umapi_user (role_mapping : gmap string (gset string)) :
  (∀ g sign_roles, role_mapping !! g = Some sign_roles → sign_roles ≠ ∅) →
  (∃ g, g ∈ groups umapi_user ∧ is_Some (role_mapping !! lower g)) →
  NoDup (resolve_new_roles umapi_user role_mapping)
  ∧ ∀ r, r ∈ resolve_new_roles umapi_user role_mapping
         ↔ ∃ g sign_roles, g ∈ groups umapi_user
                           ∧ role_mapping !! lower g = Some sign_roles ∧ r ∈ sign_roles.
Proof.
  intros Hcells (g & Hg & sr & Hm). unfold resolve_new_roles.
  rewrite decide_False.
  - split; [apply NoDup_elements|]. intros r.
    rewrite elem_of_elements, elem_of_collected_roles.
    split; [|by right]. intros [Hr|Hr]; [by apply not_elem_of_empty in Hr|done].
  - intros Hempty. destruct (set_choose_L sr (Hcells _ _ Hm)) as [r Hr].
    assert (r ∈ (∅ : gset string)) as Habs; [|set_solver].
    rewrite <- Hempty. apply elem_of_collected_roles. right. by exists g, sr.
Qed.

Section RoleTable.
Variable AdobeGroup_create : string → AdobeGroup.

Lemma add_admin_role_cells sign_role t g :
  cells_nonempty t → cells_nonempty (add_admin_role AdobeGroup_create sign_role t g).
Proof.
  intros Ht org m g' sr. unfold add_admin_role.
  set (grp := AdobeGroup_create g).
  destruct (decide (org = umapi_name grp)) as [->|Hne].
  - rewrite lookup_insert_eq. intros [= <-].
    destruct (decide (g' = lower (group_name grp))) as [->|Hne'].
    + rewrite lookup_insert_eq. intros [= <-]. set_solver.
    + rewrite lookup_insert_ne by done.
      destruct (t !! umapi_name grp) as [m|] eqn:Hm; simpl; [by apply (Ht _ _ _ _ Hm)|].
      by rewrite lookup_empty.
  - rewrite lookup_insert_ne by done. apply Ht.
Qed.

Lemma admin_role_mapping_loop_cells admin_roles t table :
  cells_nonempty t →
  admin_role_mapping_loop AdobeGroup_create admin_roles t = Ok table →
  cells_nonempty table.
Proof.
  revert t. induction admin_roles as [|mapping rest IH]; intros t Ht; simpl.
  - by intros [= <-].
  - destruct (sign_role mapping) as [r|]; [|done].
    destruct (adobe_groups mapping) as [[|g gs]|]; try by apply IH.
    apply IH. generalize (g :: gs). intros l. revert t Ht.
    induction l as [|g' l IHl]; intros t Ht; simpl; [done|].
    by apply IHl, add_admin_role_cells.
Qed.

Lemma admin_role_mapping_cells admin_roles table :
  _admin_role_mapping AdobeGroup_create admin_roles = Ok table → cells_nonempty table.
Proof.
  destruct admin_roles as [l|]; simpl.
  - apply admin_role_mapping_loop_cells. by intros org m g sr; rewrite lookup_empty.
  - intros [= <-]. by intros org m g sr; rewrite lookup_empty.
Qed.

(** C5.  For every directory user and every role-mapping table built by
    [_admin_role_mapping] (the mapping of any organization, or the empty
    mapping when the organization has none): [resolve_new_roles] returns
    exactly ["NORMAL_USER"] when no group of the user, lower-cased, has an
    entry; otherwise it returns the union, without duplicates, of the role
    sets of all the groups that have one; and the result is never empty. *)
Theorem resolve_new_roles_spec admin_roles table org_name umapi_user :
  _admin_role_mapping AdobeGroup_create admin_roles = Ok table →
  let role_mapping := default ∅ (table !! org_name) in
  ((∀ g, g ∈ groups umapi_user → role_mapping !! lower g = None) →
   resolve_new_roles umapi_user role_mapping = ["NORMAL_USER"])
  ∧ ((∃ g, g ∈ groups umapi_user ∧ is_Some (role_mapping !! lower g)) →
     NoDup (resolve_new_roles umapi_user role_mapping)
     ∧ ∀ r, r ∈ resolve_new_roles umapi_user role_mapping
            ↔ ∃ g sign_roles, g ∈ groups umapi_user
                              ∧ role_mapping !! lower g = Some sign_roles
                              ∧ r ∈ sign_roles)
  ∧ resolve_new_roles umapi_user role_mapping ≠ [].
Proof.
  intros Htable role_mapping.
  split; [apply resolve_new_roles_default|].
  split; [|apply resolve_new_roles_nonempty].
  apply resolve_new_roles_union. intros g sr Hg.
  pose proof (admin_role_mapping_cells _ _ Htable) as Hcells.
  subst role_mapping. destruct (table !! org_name) as [m|] eqn:Hm; simpl in Hg.
  - by apply (Hcells _ _ _ _ Hm Hg).
  - by rewrite lookup_empty in Hg.
Qed.
End RoleTable.

Lemma resolve_new_roles_spec_witness :
  _admin_role_mapping Model.AdobeGroup_create Scenario.admin_roles_config
  = Ok Scenario.admin_roles_table
  ∧ resolve_new_roles (Scenario.directory_user "s@x.com" "federatedID" ["Sales"])
      (default ∅ (Scenario.admin_roles_table !! "")) = ["NORMAL_USER"]
  ∧ (∀ r, r ∈ resolve_new_roles (Scenario.directory_user "l@x.com" "federatedID" ["Legal"])
                (default ∅ (Scenario.admin_roles_table !! ""))
          ↔ ∃ g sign_roles,
              g ∈ ["Legal"]
              ∧ default ∅ (Scenario.admin_roles_table !! "") !! lower g = Some sign_roles
              ∧ r ∈ sign_roles).
Proof.
  assert (Htable : _admin_role_mapping Model.AdobeGroup_create Scenario.admin_roles_config
                   = Ok Scenario.admin_roles_table) by (vm_compute; reflexivity).
  split; [exact Htable|]. split.
  - apply (resolve_new_roles_spec Model.AdobeGroup_create _ _ ""
             (Scenario.directory_user "s@x.com" "federatedID" ["Sales"]) Htable).
    intros g Hg. apply list_elem_of_singleton in Hg as ->. vm_compute. reflexivity.
  - apply (resolve_new_roles_spec Model.AdobeGroup_create _ _ ""
             (Scenario.directory_user "l@x.com" "federatedID" ["Legal"]) Htable).
    exists "Legal". split; [apply list_elem_of_singleton; reflexivity|].
    vm_compute. eexists. reflexivity.
Defined.

(** ** The update-skip decision *)

Section Groupify.
Variable AdobeGroup_create : string → AdobeGroup.

(** Every candidate stored by [_groupify] is lower-case. *)
Lemma groupify_lower raw org_name g :
  g ∈ (_groupify AdobeGroup_create raw !!! org_name : list string) → lower g = g.
Proof.
  unfold _groupify.
  assert (Hinv : ∀ (acc : gmap string (list string)),
             (∀ o x, x ∈ (acc !!! o : list string) → lower x = x) →
             ∀ o x, x ∈ (foldl (λ (processed_groups : gmap string (list string)) g0,
                                  let processed_group := AdobeGroup_create g0 in
                                  <[umapi_name processed_group :=
                                      (processed_groups !!! umapi_name processed_group)
                                        ++ [lower (group_name processed_group)]]>
                                    processed_groups) acc raw !!! o : list string) →
                    lower x = x).
  { induction raw as [|r raw IH]; intros acc Hacc; simpl; [done|].
    apply IH. intros o x.
    destruct (decide (o = umapi_name (AdobeGroup_create r))) as [->|Hne].
    - rewrite lookup_total_insert_eq. rewrite elem_of_app, list_elem_of_singleton.
      intros [Hx| ->]; [by eapply Hacc|apply lower_idemp].
    - rewrite lookup_total_insert_ne by done. apply Hacc. }
  apply Hinv. intros o x. rewrite lookup_total_empty. by intros ?%elem_of_nil.
Qed.

Lemma assignment_group_lower raw self directory_user org_name :
  user_groups self = _groupify AdobeGroup_create raw →
  lower (assignment_group self directory_user org_name)
  = assignment_group self directory_user org_name.
Proof.
  intros Hgroups. unfold assignment_group.
  destruct (List.find _ _) as [g|] eqn:Hfind; [|reflexivity].
  apply find_some in Hfind as [Hin _]. apply list_elem_of_In in Hin.
  rewrite Hgroups in Hin. by eapply groupify_lower.
Qed.

Context {C : Type} `{!SignConnector C}.

(** C6.  For an engine whose candidate table was built by [_groupify]: when
    the target user's current group equals the resolved assignment group up
    to case, and the target user's roles (a single string counting as a
    one-element list) equal the resolved roles up to order,
    [update_existing_users] only writes a debug record to the log; it issues
    no call and leaves every connector as it was. *)
Theorem update_existing_users_skip raw self sign_connector sign_user directory_user
    group_id user_roles org_name (w : World C) :
  user_groups self = _groupify AdobeGroup_create raw →
  lower (su_group sign_user) = lower (assignment_group self directory_user org_name) →
  user_roles ≡ₚ role_list (su_roles sign_user) →
  ∃ w',
    update_existing_users sign_connector sign_user directory_user group_id user_roles
      (assignment_group self directory_user org_name) w = (Ok tt, w')
    ∧ w_calls w' = w_calls w
    ∧ w_conn w' = w_conn w
    ∧ w_log w' = w_log w
        ++ [{| level := DEBUG;
               template := "skipping Sign update for '{}' -- no updates needed";
               args := [AStr (email directory_user)] |}].
Proof.
  intros Hgroups Hgroup Hroles. unfold update_existing_users.
  rewrite (assignment_group_lower raw) in Hgroup by done.
  rewrite bool_decide_eq_true_2 by done.
  rewrite (proj2 (roles_match_iff _ _) Hroles). simpl.
  eexists. split; [reflexivity|]. done.
Qed.
End Groupify.

Lemma scenario_engine_init test :
  init Model.AdobeGroup_create (Scenario.config test) = Ok (Scenario.engine test).
Proof. destruct test; vm_compute; reflexivity. Qed.

Lemma update_existing_users_skip_witness :
  ∃ w',
    update_existing_users ""
      (Scenario.sign_user "f@x.com" "id-f" "Finance" (RoleList ["GROUP_ADMIN"; "ACCOUNT_ADMIN"]))
      (Scenario.directory_user "f@x.com" "federatedID" ["finance"; "everyone"])
      "finance" ["ACCOUNT_ADMIN"; "GROUP_ADMIN"]
      (assignment_group (Scenario.engine false)
         (Scenario.directory_user "f@x.com" "federatedID" ["finance"; "everyone"]) "")
      (Model.world0 (λ _, Scenario.console [])) = (Ok tt, w')
    ∧ w_calls w' = [].
Proof.
  destruct (update_existing_users_skip Model.AdobeGroup_create ["Legal"; "Finance"]
              (Scenario.engine false) ""
              (Scenario.sign_user "f@x.com" "id-f" "Finance"
                 (RoleList ["GROUP_ADMIN"; "ACCOUNT_ADMIN"]))
              (Scenario.directory_user "f@x.com" "federatedID" ["finance"; "everyone"])
              "finance" ["ACCOUNT_ADMIN"; "GROUP_ADMIN"] ""
              (Model.world0 (λ _, Scenario.console [])))
    as (w' & Hrun & Hcalls & _).
  - reflexivity.
  - vm_compute. reflexivity.
  - apply perm_swap.
  - exists w'. split; [exact Hrun|exact Hcalls].
Defined.

(** ** The calls a computation can issue *)

Section Emits.
Context {C : Type} `{!SignConnector C}.
Implicit Types P : string * Call → Prop.

Lemma emits_ret {A} P (a : A) : emits (C := C) P (mret a).
Proof. intros w. exists []. by rewrite app_nil_r. Qed.

Lemma emits_bind {A B} P (m : M C A) (k : A → M C B) :
  emits P m → (∀ a, emits P (k a)) → emits P (m ≫= k).
Proof.
  intros Hm Hk w. rewrite run_bind. destruct (Hm w) as (new1 & E1 & F1).
  destruct (m w) as [[a|e] w1]; simpl in E1.
  - destruct (Hk a w1) as (new2 & E2 & F2). exists (new1 ++ new2).
    rewrite E2, E1, <- app_assoc. split; [done|]. by apply Forall_app.
  - by exists new1.
Qed.

Lemma emits_try_except {A} P (body : M C A) cls handler :
  emits P body → (∀ e, emits P (handler e)) → emits P (try_except body cls handler).
Proof.
  intros Hb Hh w. unfold try_except. destruct (Hb w) as (new1 & E1 & F1).
  destruct (body w) as [[a|e] w1]; simpl in E1; [by exists new1|].
  destruct (cls e); [|by exists new1].
  destruct (Hh e w1) as (new2 & E2 & F2). exists (new1 ++ new2).
  rewrite E2, E1, <- app_assoc. split; [done|]. by apply Forall_app.
Qed.

Lemma emits_log P lvl tpl a : emits (C := C) P (log lvl tpl a).
Proof. intros w. exists []. by rewrite app_nil_r. Qed.

Lemma emits_call {A} P h c (op : C → outcome A * C) : P (h, c) → emits P (call h c op).
Proof.
  intros Hc w. exists [(h, c)]. unfold call. destruct (op _) as [r s]. simpl.
  split; [done|]. by apply Forall_singleton.
Qed.

Lemma emits_for_each {A} P (l : list A) (body : A → M C unit) :
  (∀ x, x ∈ l → emits P (body x)) → emits P (for_each l body).
Proof.
  induction l as [|x l IH]; intros Hbody; cbn [for_each]; [apply emits_ret|].
  apply (emits_bind P (body x) (λ _, for_each l body)).
  - apply Hbody. by left.
  - intros _. apply IH. intros y Hy. apply Hbody. by right.
Qed.

Lemma emits_insert_new_users P sign_connector directory_user user_roles group_id
    assignment_group :
  P (sign_connector,
     CallInsertUser {| p_email := email directory_user;
                       p_firstName := firstname directory_user;
                       p_groupId := group_id;
                       p_lastName := lastname directory_user;
                       p_roles := user_roles |}) →
  emits P (insert_new_users sign_connector directory_user user_roles group_id
             assignment_group).
Proof.
  intros HP. unfold insert_new_users. apply emits_try_except.
  - apply emits_bind; [by apply emits_call|]. intros _. apply emits_log.
  - intros e. apply emits_log.
Qed.

Lemma emits_update_existing_users P sign_connector sign_user directory_user group_id
    user_roles assignment_group :
  P (sign_connector,
     CallUpdateUser (su_userId sign_user)
       {| p_email := su_email sign_user;
          p_firstName := su_firstName sign_user;
          p_groupId := group_id;
          p_lastName := su_lastName sign_user;
          p_roles := user_roles |}) →
  emits P (update_existing_users sign_connector sign_user directory_user group_id
             user_roles assignment_group).
Proof.
  intros HP. unfold update_existing_users.
  destruct (_ && _); [apply emits_log|]. apply emits_try_except.
  - apply emits_bind; [by apply emits_call|]. intros _. apply emits_log.
  - intros e. apply emits_log.
Qed.
End Emits.

(** ** The create/update pass *)

Section CreateUpdatePass.
Context {C : Type} `{!SignConnector C}.

Lemma update_sign_user_emits P self sign_connector org_name sign_users directory_user :
  (∀ name, P (sign_connector, CallGetGroup name)) →
  (Dict.get (email directory_user) sign_users = None →
   ∀ data, p_email data = email directory_user → P (sign_connector, CallInsertUser data)) →
  (∀ sign_user data,
      Dict.get (email directory_user) sign_users = Some sign_user →
      p_email data = su_email sign_user →
      P (sign_connector, CallUpdateUser (su_userId sign_user) data)) →
  emits (C := C) P (update_sign_user self sign_connector org_name sign_users directory_user).
Proof.
  intros Hgroup Hinsert Hupdate. unfold update_sign_user.
  destruct (should_sync _ _ _); simpl; [|apply emits_ret].
  apply emits_bind; [by apply emits_call|]. intros group_id.
  destruct (Dict.get (email directory_user) sign_users) as [sign_user|] eqn:Hget.
  - apply emits_bind.
    + rewrite bool_decide_eq_false_2 by done. rewrite andb_false_r. apply emits_ret.
    + intros _. apply emits_update_existing_users. by apply Hupdate.
  - apply emits_bind; [|intros _; apply emits_ret].
    destruct (_ && _); [|apply emits_ret].
    apply emits_insert_new_users. by apply Hinsert.
Qed.

(** C10.  The target users that [update_sign_users] works with are those
    returned by the one [get_users] call it makes before its loop.  For a
    directory user whose email is not a key of that snapshot, one turn of
    the loop issues no update call, whether or not it inserts the user; and
    over the whole pass every update call is made for a target user of the
    snapshot, while every insert call is made for an email that the
    snapshot does not hold. *)
Theorem update_sign_users_snapshot self directory_users sign_connector org_name
    (w : World C) sign_users s :
  get_users (w_conn w sign_connector) = (Done sign_users, s) →
  (∀ directory_user (w1 : World C),
      Dict.get (email directory_user) sign_users = None →
      ∃ new,
        w_calls (update_sign_user self sign_connector org_name sign_users
                   directory_user w1).2 = w_calls w1 ++ new
        ∧ Forall (λ c, ∀ user_id data, c.2 ≠ CallUpdateUser user_id data) new)
  ∧ ∃ new,
      w_calls (update_sign_users self directory_users sign_connector org_name w).2
      = w_calls w ++ (sign_connector, CallGetUsers) :: new
      ∧ Forall (λ c,
                  match c.2 with
                  | CallUpdateUser user_id data =>
                      ∃ directory_user sign_user,
                        directory_user ∈ Dict.values directory_users
                        ∧ Dict.get (email directory_user) sign_users = Some sign_user
                        ∧ user_id = su_userId sign_user
                        ∧ p_email data = su_email sign_user
                  | CallInsertUser data =>
                      ∃ directory_user,
                        directory_user ∈ Dict.values directory_users
                        ∧ p_email data = email directory_user
                        ∧ Dict.get (email directory_user) sign_users = None
                  | _ => True
                  end) new.
Proof.
  intros Hget. split.
  - intros directory_user w1 Hnone.
    apply (update_sign_user_emits
             (λ c, ∀ user_id data, c.2 ≠ CallUpdateUser user_id data)); try done.
    intros sign_user data Hsome. by rewrite Hnone in Hsome.
  - unfold update_sign_users. rewrite run_bind. unfold call at 1. rewrite Hget.
    match goal with |- context [for_each ?l ?f ?w0] =>
      destruct (emits_for_each
                  (λ c,
                     match c.2 with
                     | CallUpdateUser user_id data =>
                         ∃ directory_user sign_user,
                           directory_user ∈ Dict.values directory_users
                           ∧ Dict.get (email directory_user) sign_users = Some sign_user
                           ∧ user_id = su_userId sign_user
                           ∧ p_email data = su_email sign_user
                     | CallInsertUser data =>
                         ∃ directory_user,
                           directory_user ∈ Dict.values directory_users
                           ∧ p_email data = email directory_user
                           ∧ Dict.get (email directory_user) sign_users = None
                     | _ => True
                     end) l f) with w0 as (new & Hcalls & Hnew)
    end.
    + intros directory_user Hin. apply update_sign_user_emits; simpl; [done| |].
      * intros Hnone data Hmail. by exists directory_user.
      * intros sign_user data Hsome Hmail. by exists directory_user, sign_user.
    + exists new. split; [|done]. rewrite Hcalls. cbn [w_calls]. by rewrite <- app_assoc.
Qed.
End CreateUpdatePass.

Lemma update_sign_users_snapshot_witness :
  get_users (Scenario.console []) = (Done Scenario.roster, Scenario.console [])
  ∧ (∃ new,
        w_calls (update_sign_user (Scenario.engine false) "" "" Scenario.roster
                   (Scenario.directory_user "n@x.com" "federatedID" ["everyone"])
                   (Model.world0 (λ _, Scenario.console []))).2 = [] ++ new
        ∧ Forall (λ c, ∀ user_id data, c.2 ≠ CallUpdateUser user_id data) new)
  ∧ w_calls (update_sign_users (Scenario.engine false) Scenario.newcomers "" ""
               (Model.world0 (λ _, Scenario.console []))).2
    = [("", CallGetUsers);
       ("", CallGetGroup "default group");
       ("", CallInsertUser {| p_email := "n@x.com"; p_firstName := "First";
                              p_groupId := "default group"; p_lastName := "Last";
                              p_roles := ["NORMAL_USER"] |});
       ("", CallGetGroup "legal");
       ("", CallUpdateUser "id-b" {| p_email := "b@x.com"; p_firstName := "First";
                                     p_groupId := "legal"; p_lastName := "Last";
                                     p_roles := ["GROUP_ADMIN"; "ACCOUNT_ADMIN"] |})].
Proof.
  split; [reflexivity|].
  destruct (update_sign_users_snapshot (Scenario.engine false) Scenario.newcomers "" ""
              (Model.world0 (λ _, Scenario.console [])) Scenario.roster
              (Scenario.console [])) as [Hturn _]; [reflexivity|].
  split.
  - apply Hturn. reflexivity.
  - vm_compute. reflexivity.
Defined.

(** ** The directory snapshot and the deactivation sweep *)

Lemma dict_get_set_eq {V} k (v : V) d : Dict.get k (Dict.set k v d) = Some v.
Proof.
  induction d as [|[k' v'] d IH]; simpl.
  - by rewrite decide_True.
  - destruct (decide (k = k')) as [->|Hne]; simpl.
    + by rewrite decide_True.
    + by rewrite decide_False.
Qed.

Lemma dict_get_set_ne {V} k k' (v : V) d :
  k ≠ k' → Dict.get k (Dict.set k' v d) = Dict.get k d.
Proof.
  intros Hne. induction d as [|[k'' v''] d IH]; simpl.
  - by rewrite decide_False.
  - destruct (decide (k' = k'')) as [->|Hne']; simpl.
    + by rewrite !decide_False.
    + destruct (decide (k = k'')); [done|apply IH].
Qed.

Lemma dict_get_values {V} k (v : V) d : Dict.get k d = Some v → v ∈ Dict.values d.
Proof.
  induction d as [|[k' v'] d IH]; simpl; [done|].
  destruct (decide (k = k')).
  - intros [= ->]. by left.
  - intros Hget. right. by apply IH.
Qed.

Section Snapshot.
Context {C : Type} `{!SignConnector C}.
Variable normalize_string : option string → option string.
Variable parse_identity_type : option string → result (option string).

Lemma get_directory_user_key_run self directory_user (w : World C) :
  ∃ w',
    get_directory_user_key normalize_string parse_identity_type self directory_user w
    = (directory_user_key normalize_string parse_identity_type self directory_user, w')
    ∧ w_calls w' = w_calls w ∧ w_conn w' = w_conn w ∧ w_dir_calls w' = w_dir_calls w
    ∧ w_directory_user_by_user_key w' = w_directory_user_by_user_key w.
Proof.
  unfold get_directory_user_key, get_identity_type_from_directory_user, directory_user_key.
  rewrite run_bind. destruct (identity_type directory_user) as [t|]; simpl; eauto 10.
Qed.

(** One turn of the loop of [read_desired_user_groups]. *)
Lemma read_turn self directory_user (w : World C) :
  ∃ w',
    (user_key ← get_directory_user_key normalize_string parse_identity_type self
                  directory_user;
     if negb (truthy user_key) then
       log WARNING "Ignoring directory user with empty user key: %s" [AUser directory_user]
     else
       store_directory_user (default "" user_key) directory_user) w
    = (match directory_user_key normalize_string parse_identity_type self directory_user with
       | Ok _ => Ok tt
       | Raise e => Raise e
       end, w')
    ∧ w_calls w' = w_calls w ∧ w_conn w' = w_conn w ∧ w_dir_calls w' = w_dir_calls w
    ∧ w_directory_user_by_user_key w'
      = admit_directory_user normalize_string parse_identity_type self
          (w_directory_user_by_user_key w) directory_user.
Proof.
  rewrite run_bind. unfold admit_directory_user.
  destruct (get_directory_user_key_run self directory_user w)
    as (w1 & -> & Hc & Hn & Hd & Hs).
  destruct (directory_user_key _ _ _ _) as [[[|c k]|]|e]; simpl; eauto 10.
  eexists. split; [reflexivity|]. simpl. by rewrite Hs.
Qed.

Lemma read_loop self loaded (w w' : World C) :
  for_each loaded (λ directory_user,
    user_key ← get_directory_user_key normalize_string parse_identity_type self
                 directory_user;
    if negb (truthy user_key) then
      log WARNING "Ignoring directory user with empty user key: %s" [AUser directory_user]
    else
      store_directory_user (default "" user_key) directory_user) w = (Ok tt, w') →
  w_calls w' = w_calls w ∧ w_conn w' = w_conn w ∧ w_dir_calls w' = w_dir_calls w
  ∧ w_directory_user_by_user_key w'
    = foldl (admit_directory_user normalize_string parse_identity_type self)
            (w_directory_user_by_user_key w) loaded.
Proof.
  revert w. induction loaded as [|du loaded IH]; intros w; cbn [for_each foldl].
  - by intros [= <-].
  - change (bind ?m ?k) with (m ≫= k). rewrite run_bind.
    destruct (read_turn self du w) as (w1 & -> & Hc & Hn & Hd & Hs).
    destruct (directory_user_key _ _ _ _) as [k|e]; [|done].
    intros Hrest. apply IH in Hrest as (Hc' & Hn' & Hd' & Hs').
    by rewrite Hc', Hn', Hd', Hs', Hc, Hn, Hd, Hs.
Qed.

(** A user admitted under a key stays in the dictionary as long as no later
    user is admitted under the same key. *)
Lemma admitted_stays self k directory_user later d :
  Dict.get k d = Some directory_user →
  (∀ du, du ∈ later →
         directory_user_key normalize_string parse_identity_type self du ≠ Ok (Some k)) →
  Dict.get k (foldl (admit_directory_user normalize_string parse_identity_type self) d later)
  = Some directory_user.
Proof.
  revert d. induction later as [|du later IH]; intros d Hget Hlater; simpl; [done|].
  apply IH; [|intros du' Hdu'; apply Hlater; by right].
  unfold admit_directory_user.
  pose proof (Hlater du (list_elem_of_here _ _)) as Hdu.
  destruct (directory_user_key _ _ _ _) as [[[|c k']|]|e]; try done.
  rewrite dict_get_set_ne; [done|]. by intros ->.
Qed.
(** C9, as the code has it.  The dictionary returned by
    [read_desired_user_groups] is filled
    from the users the directory returned, without consulting [should_sync]:
    a user with a non-empty key is in it unless a later user has the same
    key.  The deactivation sweep run on that dictionary issues no deactivate
    call for a target user whose lower-cased email is the lower-cased email
    of any user of the dictionary, eligible for sync or not. *)
Theorem deactivation_protection self mappings directory_connector (w w1 : World C)
    directory_users sign_connector sign_users s :
  read_desired_user_groups normalize_string parse_identity_type self mappings
    directory_connector w = (Ok (Some directory_users), w1) →
  get_users (w_conn w1 sign_connector) = (Done sign_users, s) →
  (∃ c loaded,
      directory_connector c = Done loaded
      ∧ w_dir_calls w1 = w_dir_calls w ++ [c]
      ∧ directory_users
        = foldl (admit_directory_user normalize_string parse_identity_type self)
                (w_directory_user_by_user_key w) loaded
      ∧ ∀ before directory_user later c0 k,
          loaded = before ++ directory_user :: later →
          directory_user_key normalize_string parse_identity_type self directory_user
          = Ok (Some (String c0 k)) →
          (∀ du, du ∈ later →
                 directory_user_key normalize_string parse_identity_type self du
                 ≠ Ok (Some (String c0 k))) →
          directory_user ∈ Dict.values directory_users)
  ∧ ∃ w2,
      deactivate_sign_users directory_users sign_connector w1 = (Ok tt, w2)
      ∧ w_calls w2 = w_calls w1 ++ (sign_connector, CallGetUsers)
          :: ((λ sign_user,
                 (sign_connector,
                  CallDeactivateUser (su_userId sign_user) [("userStatus", "INACTIVE")]))
                <$> filter (λ sign_user,
                              lower (su_email sign_user)
                                ∉ (λ directory_user, lower (email directory_user))
                                    <$> Dict.values directory_users)
                           (Dict.values sign_users))
      ∧ ∀ directory_user sign_user,
          directory_user ∈ Dict.values directory_users →
          lower (su_email sign_user) = lower (email directory_user) →
          sign_user ∉ filter (λ sign_user,
                                lower (su_email sign_user)
                                  ∉ (λ directory_user, lower (email directory_user))
                                      <$> Dict.values directory_users)
                             (Dict.values sign_users).
Proof.
  intros Hread Hget. split.
  - unfold read_desired_user_groups in Hread. rewrite run_bind in Hread.
    cbn [log] in Hread. rewrite run_bind in Hread. unfold call_directory at 1 in Hread.
    match type of Hread with context [directory_connector ?c0] => set (c := c0) in * end.
    destruct (directory_connector c) as [loaded|msg] eqn:Hdc; [|done].
    rewrite run_bind in Hread.
    match type of Hread with context [for_each loaded ?f ?w0] =>
      destruct (for_each loaded f w0) as [[[]|e] w'] eqn:Hloop; [|done]
    end.
    apply read_loop in Hloop as (_ & _ & Hd & Hs). simpl in Hd, Hs.
    unfold read_directory_user_by_user_key in Hread. rewrite run_bind in Hread.
    injection Hread as <- <-.
    exists c, loaded. split; [done|]. split; [done|]. split; [done|].
    intros before du later c0 k -> Hkey Hlater. apply (dict_get_values (String c0 k)).
    rewrite Hs, foldl_app. cbn [foldl]. apply admitted_stays; [|done].
    unfold admit_directory_user at 1. rewrite Hkey. apply dict_get_set_eq.
  - unfold deactivate_sign_users. rewrite run_bind. unfold call at 1. rewrite Hget.
    match goal with |- context [for_each ?l ?f ?w0] =>
      destruct (deactivate_loop_calls sign_connector
                  ((λ directory_user, lower (email directory_user))
                     <$> Dict.values directory_users)
                  (Dict.values sign_users) w0) as (w2 & Hrun & Hc)
    end.
    exists w2. split; [exact Hrun|]. split.
    + rewrite Hc. cbn [w_calls]. by rewrite <- app_assoc.
    + intros du su Hdu Hmail [Hout _]%list_elem_of_filter. apply Hout.
      rewrite Hmail. by apply (list_elem_of_fmap_2 (λ u, lower (email u))).
Qed.
End Snapshot.

Lemma deactivation_protection_witness :
  should_sync (Scenario.engine false) Scenario.outsider "" = false
  ∧ ∃ w1 w2,
      read_desired_user_groups Model.normalize_string Model.parse_identity_type
        (Scenario.engine false) ∅ Scenario.directory
        (Model.world0 (λ _, Scenario.console []))
      = (Ok (Some [("federatedID,a@x.com,", Scenario.outsider)]), w1)
      ∧ deactivate_sign_users [("federatedID,a@x.com,", Scenario.outsider)] "" w1
        = (Ok tt, w2)
      ∧ w_calls w2 = [("", CallGetUsers);
                      ("", CallDeactivateUser "id-b" [("userStatus", "INACTIVE")])].
Proof.
  split; [vm_compute; reflexivity|].
  set (w1 := (read_desired_user_groups Model.normalize_string Model.parse_identity_type
                (Scenario.engine false) ∅ Scenario.directory
                (Model.world0 (λ _, Scenario.console []))).2).
  assert (Hread : read_desired_user_groups Model.normalize_string Model.parse_identity_type
                    (Scenario.engine false) ∅ Scenario.directory
                    (Model.world0 (λ _, Scenario.console []))
                  = (Ok (Some [("federatedID,a@x.com,", Scenario.outsider)]), w1))
    by (vm_compute; reflexivity).
  destruct (deactivation_protection Model.normalize_string Model.parse_identity_type
              (Scenario.engine false) ∅ Scenario.directory
              (Model.world0 (λ _, Scenario.console [])) w1
              [("federatedID,a@x.com,", Scenario.outsider)] "" Scenario.roster
              (Scenario.console []) Hread)
    as [_ (w2 & Hrun & Hcalls & _)]; [vm_compute; reflexivity|].
  exists w1, w2. split; [exact Hread|]. split; [exact Hrun|].
  rewrite Hcalls. vm_compute. reflexivity.
Defined.

(** The claim that every directory user with a valid identity key shields
    the target user of the same email fails when two directory users have
    the same key: line 195 stores the second over the first, the email of
    the first is no longer in the dictionary, and the sweep deactivates the
    target user who has it. *)
Lemma deactivation_protection_counterexample :
  directory_user_key Model.normalize_string Model.parse_identity_type
    (Scenario.engine false) Scenario.bob_first = Ok (Some "federatedID,bob,x.com")
  ∧ Dict.get (email Scenario.bob_first) Scenario.roster
    = Some (Scenario.sign_user "a@x.com" "id-a" "Finance" (RoleStr "NORMAL_USER"))
  ∧ (read_desired_user_groups Model.normalize_string Model.parse_identity_type
       (Scenario.engine false) ∅ Scenario.directory_of_bobs
       (Model.world0 (λ _, Scenario.console []))).1
    = Ok (Some [("federatedID,bob,x.com", Scenario.bob_second)])
  ∧ (w_calls
       (deactivate_sign_users [("federatedID,bob,x.com", Scenario.bob_second)] ""
          (read_desired_user_groups Model.normalize_string Model.parse_identity_type
             (Scenario.engine false) ∅ Scenario.directory_of_bobs
             (Model.world0 (λ _, Scenario.console []))).2).2).*2
    = [CallGetUsers;
       CallDeactivateUser "id-a" [("userStatus", "INACTIVE")];
       CallDeactivateUser "id-b" [("userStatus", "INACTIVE")]].
Proof. repeat split; vm_compute; reflexivity. Qed.

(** ** Test mode *)

Section TestMode.
Context {C : Type} `{!SignConnector C}.
Variable normalize_string : option string → option string.
Variable parse_identity_type : option string → result (option string).

(** C7, as the code has it.  When [test_mode] is set, [run] writes one info
    record to the log and returns: it performs no eligibility or resolution
    step, reads neither the directory nor any console, and issues no call of
    any kind, so in particular no create, update or deactivate call. *)
Theorem run_test_mode self directory_groups directory_connector (w : World C) :
  test_mode self = true →
  ∃ w',
    run normalize_string parse_identity_type self directory_groups directory_connector w
    = (Ok tt, w')
    ∧ w_calls w' = w_calls w
    ∧ w_dir_calls w' = w_dir_calls w
    ∧ w_conn w' = w_conn w
    ∧ w_directory_user_by_user_key w' = w_directory_user_by_user_key w
    ∧ w_log w' = w_log w
        ++ [{| level := INFO; template := "Sign Sync disabled in test mode"; args := [] |}].
Proof.
  intros Htest. unfold run. rewrite Htest.
  eexists. split; [reflexivity|]. by repeat split.
Qed.
End TestMode.

Lemma run_test_mode_witness :
  test_mode (Scenario.engine true) = true
  ∧ ∃ w',
      run Model.normalize_string Model.parse_identity_type (Scenario.engine true) ∅
        Scenario.directory_of_both (Model.world0 (λ _, Scenario.console []))
      = (Ok tt, w')
      ∧ w_calls w' = [] ∧ w_dir_calls w' = [].
Proof.
  split; [reflexivity|].
  destruct (run_test_mode Model.normalize_string Model.parse_identity_type
              (Scenario.engine true) ∅ Scenario.directory_of_both
              (Model.world0 (λ _, Scenario.console [])) eq_refl)
    as (w' & Hrun & Hcalls & Hdir & _).
  exists w'. split; [exact Hrun|]. split; [exact Hcalls|exact Hdir].
Defined.

(** The claim that in test mode the engine still performs the eligibility
    and resolution logic, only without mutating calls, fails: those steps
    need the directory users, and on this run with two eligible users the
    directory is never read.  The same run without [test_mode] reads the
    directory and resolves a group for each user. *)
Lemma run_test_mode_counterexample :
  ¬ (w_dir_calls
       (run Model.normalize_string Model.parse_identity_type (Scenario.engine true) ∅
          Scenario.directory_of_both (Model.world0 (λ _, Scenario.console []))).2 ≠ []
     ∧ Forall (λ c, mutating c.2 = false)
         (w_calls
            (run Model.normalize_string Model.parse_identity_type (Scenario.engine true) ∅
               Scenario.directory_of_both (Model.world0 (λ _, Scenario.console []))).2)).
Proof. intros [Hread _]. apply Hread. vm_compute. reflexivity. Qed.

Lemma run_without_test_mode :
  (w_calls
     (run Model.normalize_string Model.parse_identity_type (Scenario.engine false) ∅
        Scenario.directory_of_both (Model.world0 (λ _, Scenario.console []))).2).*2
  = [CallSignGroups; CallGetUsers;
     CallGetGroup "default group";
     CallUpdateUser "id-a" {| p_email := "a@x.com"; p_firstName := "First";
                              p_groupId := "default group"; p_lastName := "Last";
                              p_roles := ["NORMAL_USER"] |};
     CallGetGroup "default group";
     CallUpdateUser "id-b" {| p_email := "b@x.com"; p_firstName := "First";
                              p_groupId := "default group"; p_lastName := "Last";
                              p_roles := ["NORMAL_USER"] |};
     CallGetUsers].
Proof. vm_compute. reflexivity. Qed.

(** ** Group comparisons *)

(** What the loop of lines 91-94 selects: the first candidate that is, as
    written, an element of the user's groups. *)
Lemma assignment_group_first_exact self directory_user org_name :
  (∀ g, g ∈ (user_groups self !!! org_name : list string) → g ∉ groups directory_user) ∧
  assignment_group self directory_user org_name = DEFAULT_GROUP_NAME
  ∨ ∃ before g after,
      (user_groups self !!! org_name : list string) = before ++ g :: after
      ∧ g ∈ groups directory_user
      ∧ (∀ g', g' ∈ before → g' ∉ groups directory_user)
      ∧ assignment_group self directory_user org_name = g.
Proof.
  unfold assignment_group.
  induction (user_groups self !!! org_name : list string) as [|c l IH]; simpl.
  - left. split; [|done]. by intros g ?%elem_of_nil.
  - destruct (decide (c ∈ groups directory_user)) as [Hin|Hout].
    + rewrite bool_decide_eq_true_2 by done. right. exists [], c, l.
      split; [done|]. split; [done|]. split; [|done]. by intros g ?%elem_of_nil.
    + rewrite bool_decide_eq_false_2 by done.
      destruct IH as [[Hnone Hdef]|(before & g & after & -> & Hg & Hbefore & Hsel)].
      * left. split; [|done]. intros g [->|Hg]%elem_of_cons; [done|by apply Hnone].
      * right. exists (c :: before), g, after. split; [done|]. split; [done|].
        split; [|done]. intros g' [->|Hg']%elem_of_cons; [done|by apply Hbefore].
Qed.


(** What [should_sync] computes: a group of the user is, as written, an
    entitlement group of the organization, and the user's type is allowed. *)
Lemma should_sync_exact self umapi_user org_name :
  should_sync self umapi_user org_name = true
  ↔ (∃ g, g ∈ groups umapi_user
          ∧ g ∈ (entitlement_groups self !!! org_name : list string))
    ∧ type umapi_user ∈ identity_types self.
Proof.
  unfold should_sync. rewrite andb_true_iff, !bool_decide_eq_true.
  apply and_iff_compat_r. split.
  - intros Hne. apply set_choose_L in Hne as [g Hg].
    apply elem_of_intersection in Hg as [Hg1 Hg2].
    apply elem_of_list_to_set in Hg1, Hg2. by exists g.
  - intros (g & Hg1 & Hg2) Hempty.
    apply (not_elem_of_empty (C := gset string) g). rewrite <- Hempty.
    apply elem_of_intersection. split; by apply elem_of_list_to_set.
Qed.

(** C3, on the same user.  The entitlement group configured as Everyone is
    stored lower-cased; the user belongs to the directory group Everyone and
    has an allowed identity type; yet the intersection is taken between the
    groups as written and the stored names, it is empty, and [should_sync]
    answers no. *)
Theorem should_sync_case_sensitive :
  (entitlement_groups (Scenario.engine false) !!! "" : list string) = ["everyone"]
  ∧ "Everyone" ∈ groups Scenario.legal_user
  ∧ lower "Everyone" = lower "everyone"
  ∧ type Scenario.legal_user ∈ identity_types (Scenario.engine false)
  ∧ should_sync (Scenario.engine false) Scenario.legal_user "" = false.
Proof.
  split; [vm_compute; reflexivity|]. split; [right; by left|].
  split; [reflexivity|]. split; [|vm_compute; reflexivity].
  right. right. by left.
Qed.

(** ** Failures of per-user calls *)

Section Recovery.
Context {C : Type} `{!SignConnector C}.

(** [insert_new_users] never raises: a refused insert only adds an error
    record, which carries the message of the failure. *)
Lemma insert_new_users_recovers sign_connector directory_user user_roles group_id
    assignment_group (w : World C) :
  ∃ w', insert_new_users sign_connector directory_user user_roles group_id
          assignment_group w = (Ok tt, w')
        ∧ w_calls w' = w_calls w
            ++ [(sign_connector,
                 CallInsertUser {| p_email := email directory_user;
                                   p_firstName := firstname directory_user;
                                   p_groupId := group_id;
                                   p_lastName := lastname directory_user;
                                   p_roles := user_roles |})].
Proof.
  unfold insert_new_users, try_except. rewrite run_bind. unfold call.
  destruct (insert_user _ _) as [[[]|msg] s]; simpl; eauto.
Qed.

(** A refused update is raised by [update_existing_users] to its caller:
    the handler of lines 262-263 is for [AssertionError], and what the
    connector raises is [AssertionException]. *)
Lemma update_existing_users_raises sign_connector sign_user directory_user group_id
    user_roles assignment_group (w : World C) msg s :
  (bool_decide (lower (su_group sign_user) = assignment_group)
   && roles_match user_roles (su_roles sign_user)) = false →
  update_user (su_userId sign_user)
    {| p_email := su_email sign_user; p_firstName := su_firstName sign_user;
       p_groupId := group_id; p_lastName := su_lastName sign_user;
       p_roles := user_roles |} (w_conn w sign_connector) = (Failed msg, s) →
  ∃ w', update_existing_users sign_connector sign_user directory_user group_id
          user_roles assignment_group w = (Raise (AssertionException msg), w')
        ∧ w_log w' = w_log w.
Proof.
  intros Hdiff Hfail. unfold update_existing_users. rewrite Hdiff.
  unfold try_except. rewrite run_bind. unfold call. rewrite Hfail. simpl. eauto.
Qed.
End Recovery.

(** C2, on a console that lists two users, both due for an update, and that
    refuses the update of the first.  The failure is not recovered: the pass
    over the users ends with the exception, nothing is logged, the second
    user gets no call, and [run] itself ends with the exception. *)
Theorem update_failure_aborts :
  (update_sign_users (Scenario.engine false) Scenario.both_listed "" ""
     (Model.world0 (λ _, Scenario.console ["id-a"]))).1
  = Raise (AssertionException "cannot update id-a")
  ∧ (w_calls
       (update_sign_users (Scenario.engine false) Scenario.both_listed "" ""
          (Model.world0 (λ _, Scenario.console ["id-a"]))).2).*2
    = [CallGetUsers;
       CallGetGroup "default group";
       CallUpdateUser "id-a" {| p_email := "a@x.com"; p_firstName := "First";
                                p_groupId := "default group"; p_lastName := "Last";
                                p_roles := ["NORMAL_USER"] |}]
  ∧ w_log
      (update_sign_users (Scenario.engine false) Scenario.both_listed "" ""
         (Model.world0 (λ _, Scenario.console ["id-a"]))).2 = []
  ∧ (run Model.normalize_string Model.parse_identity_type (Scenario.engine false) ∅
       Scenario.directory_of_both (Model.world0 (λ _, Scenario.console ["id-a"]))).1
    = Raise (AssertionException "cannot update id-a").
Proof. repeat split; vm_compute; reflexivity. Qed.

(** The same console refusing the deactivation of a user, or the insertion
    of one, does not stop the engine. *)
Lemma other_failures_recovered :
  (deactivate_sign_users [] ""
     (Model.world0 (λ _, Scenario.console ["id-a"]))).1 = Ok tt
  ∧ (w_calls (deactivate_sign_users [] ""
                (Model.world0 (λ _, Scenario.console ["id-a"]))).2).*2
    = [CallGetUsers;
       CallDeactivateUser "id-a" [("userStatus", "INACTIVE")];
       CallDeactivateUser "id-b" [("userStatus", "INACTIVE")]]
  ∧ (update_sign_users (Scenario.engine false) Scenario.newcomers "" ""
       (Model.world0 (λ _, Scenario.console ["n@x.com"]))).1 = Ok tt
  ∧ w_log (update_sign_users (Scenario.engine false) Scenario.newcomers "" ""
             (Model.world0 (λ _, Scenario.console ["n@x.com"]))).2
    = [{| level := ERROR; template := "{}"; args := [AStr "cannot insert n@x.com"] |};
       {| level := INFO; template := "Updated Sign user '{}', Group: '{}', Roles: {}";
          args := [AStr "b@x.com"; AStr "legal"; ARoles ["GROUP_ADMIN"; "ACCOUNT_ADMIN"]] |}].
Proof. repeat split; vm_compute; reflexivity. Qed.

(** * Further properties of the engine *)

(** ** The tables built from the configuration *)

Section ConfigTables.
Variable AdobeGroup_create : string → AdobeGroup.

Lemma groupify_fold raw (acc : gmap string (list string)) org_name :
  (foldl (λ (processed_groups : gmap string (list string)) g,
            let processed_group := AdobeGroup_create g in
            <[umapi_name processed_group :=
                (processed_groups !!! umapi_name processed_group)
                  ++ [lower (group_name processed_group)]]> processed_groups)
         acc raw !!! org_name : list string)
  = (acc !!! org_name)
      ++ ((λ g, lower (group_name (AdobeGroup_create g)))
            <$> filter (λ g, umapi_name (AdobeGroup_create g) = org_name) raw).
Proof.
  revert acc. induction raw as [|g raw IH]; intros acc; simpl.
  - by rewrite app_nil_r.
  - rewrite IH, filter_cons.
    destruct (decide (umapi_name (AdobeGroup_create g) = org_name)) as [<-|Hne].
    + rewrite lookup_total_insert_eq, fmap_cons, <- app_assoc. done.
    + by rewrite lookup_total_insert_ne.
Qed.

(** The candidates that [_groupify] stores for an organization are the group
    names of the raw entries that name that organization, lower-cased, in
    the order of the configuration and with repetitions kept; an
    organization that no entry names has the empty list. *)
Theorem groupify_lookup raw org_name :
  (_groupify AdobeGroup_create raw !!! org_name : list string)
  = (λ g, lower (group_name (AdobeGroup_create g)))
      <$> filter (λ g, umapi_name (AdobeGroup_create g) = org_name) raw.
Proof.
  unfold _groupify. rewrite groupify_fold. by rewrite lookup_total_empty.
Qed.

(** The roles recorded for the cell [org_name], [g] of a table. *)
Lemma add_admin_role_lookup sign_role t raw org_name g r :
  r ∈ default ∅ (default ∅ (add_admin_role AdobeGroup_create sign_role t raw !! org_name) !! g)
  ↔ r ∈ default (∅ : gset string) (default ∅ (t !! org_name) !! g)
    ∨ (r = sign_role
       ∧ umapi_name (AdobeGroup_create raw) = org_name
       ∧ lower (group_name (AdobeGroup_create raw)) = g).
Proof.
  unfold add_admin_role. set (grp := AdobeGroup_create raw).
  destruct (decide (umapi_name grp = org_name)) as [<-|Horg].
  - rewrite lookup_insert_eq. simpl.
    destruct (decide (lower (group_name grp) = g)) as [<-|Hg].
    + rewrite lookup_insert_eq. simpl. rewrite elem_of_union, elem_of_singleton.
      split; [intros [?| ->]; [by left|by right]|intros [?|(-> & _)]; [by left|by right]].
    + rewrite lookup_insert_ne by done.
      split; [by left|]. by intros [?|(_ & _ & ?)].
  - rewrite lookup_insert_ne by done.
    split; [by left|]. by intros [?|(_ & ? & _)].
Qed.

Lemma add_admin_roles_lookup sign_role gs t org_name g r :
  r ∈ default ∅ (default ∅ (foldl (add_admin_role AdobeGroup_create sign_role) t gs
                              !! org_name) !! g)
  ↔ r ∈ default (∅ : gset string) (default ∅ (t !! org_name) !! g)
    ∨ (r = sign_role
       ∧ ∃ raw, raw ∈ gs
                ∧ umapi_name (AdobeGroup_create raw) = org_name
                ∧ lower (group_name (AdobeGroup_create raw)) = g).
Proof.
  revert t. induction gs as [|raw gs IH]; intros t; simpl.
  - split; [by left|]. intros [?|(_ & raw & Hraw & _)]; [done|].
    by apply elem_of_nil in Hraw.
  - rewrite IH, add_admin_role_lookup. split.
    + intros [[?|(-> & Ho & Hg)]|(-> & raw' & Hraw & Ho & Hg)]; [by left| |].
      * right. split; [done|]. exists raw. split; [by left|done].
      * right. split; [done|]. exists raw'. split; [by right|done].
    + intros [?|(-> & raw' & Hraw & Ho & Hg)]; [by left; left|].
      apply elem_of_cons in Hraw as [->|Hraw].
      * left. by right.
      * right. split; [done|]. by exists raw'.
Qed.

Lemma admin_role_mapping_loop_lookup admin_roles t table org_name g r :
  admin_role_mapping_loop AdobeGroup_create admin_roles t = Ok table →
  r ∈ default (∅ : gset string) (default ∅ (table !! org_name) !! g)
  ↔ r ∈ default (∅ : gset string) (default ∅ (t !! org_name) !! g)
    ∨ ∃ mapping gs raw,
        mapping ∈ admin_roles
        ∧ sign_role mapping = Some r
        ∧ adobe_groups mapping = Some gs
        ∧ raw ∈ gs
        ∧ umapi_name (AdobeGroup_create raw) = org_name
        ∧ lower (group_name (AdobeGroup_create raw)) = g.
Proof.
  revert t. induction admin_roles as [|mapping rest IH]; intros t; simpl.
  - intros [= <-]. split; [by left|].
    intros [?|(m & gs & raw & Hm & _)]; [done|]. by apply elem_of_nil in Hm.
  - destruct (sign_role mapping) as [role|] eqn:Hrole; [|done].
    destruct (adobe_groups mapping) as [gs|] eqn:Hgs.
    + intros Hloop.
      assert (Hloop' : admin_role_mapping_loop AdobeGroup_create rest
                         (foldl (add_admin_role AdobeGroup_create role) t gs) = Ok table)
        by (by destruct gs).
      rewrite (IH _ Hloop'), add_admin_roles_lookup. split.
      * intros [[?|(-> & raw & Hraw & Ho & Hg)]|(m & gs' & raw & Hm & Hr & Hg' & Hraw & Ho & Hg)].
        -- by left.
        -- right. exists mapping, gs, raw. split; [by left|done].
        -- right. exists m, gs', raw. split; [by right|done].
      * intros [?|(m & gs' & raw & Hm & Hr & Hg' & Hraw & Ho & Hg)]; [by left; left|].
        apply elem_of_cons in Hm as [->|Hm].
        -- left. right. rewrite Hrole in Hr. injection Hr as ->.
           rewrite Hgs in Hg'. injection Hg' as ->. split; [done|]. by exists raw.
        -- right. by exists m, gs', raw.
    + intros Hloop. rewrite (IH _ Hloop). split.
      * intros [?|(m & gs' & raw & Hm & Hrest)]; [by left|].
        right. exists m, gs', raw. split; [by right|done].
      * intros [?|(m & gs' & raw & Hm & Hr & Hg' & Hrest)]; [by left|].
        apply elem_of_cons in Hm as [->|Hm]; [by rewrite Hgs in Hg'|].
        right. by exists m, gs', raw.
Qed.

(** A role is recorded for a group of an organization exactly when some
    entry of [admin_roles] declares that role and lists a group reference
    that names the organization and, lower-cased, the group.  Entries
    without groups contribute nothing. *)
Theorem admin_role_mapping_lookup admin_roles table org_name g r :
  _admin_role_mapping AdobeGroup_create (Some admin_roles) = Ok table →
  r ∈ default (∅ : gset string) (default ∅ (table !! org_name) !! g)
  ↔ ∃ mapping gs raw,
      mapping ∈ admin_roles
      ∧ sign_role mapping = Some r
      ∧ adobe_groups mapping = Some gs
      ∧ raw ∈ gs
      ∧ umapi_name (AdobeGroup_create raw) = org_name
      ∧ lower (group_name (AdobeGroup_create raw)) = g.
Proof.
  simpl. intros Hloop. rewrite (admin_role_mapping_loop_lookup _ _ _ _ _ _ Hloop).
  rewrite lookup_empty. simpl. rewrite lookup_empty. simpl.
  split; [|by right]. intros [Hr|?]; [|done]. by apply not_elem_of_empty in Hr.
Qed.

(** The construction of the table fails, with the one configuration error
    of the method, exactly when some entry declares no role, whether or not
    that entry lists groups; without an [admin_roles] list the table is
    empty. *)
Theorem admin_role_mapping_error admin_roles :
  ((∃ mapping, mapping ∈ admin_roles ∧ sign_role mapping = None) →
   _admin_role_mapping AdobeGroup_create (Some admin_roles)
   = Raise (AssertionException "must define a Sign role in admin role mapping"))
  ∧ ((∀ mapping, mapping ∈ admin_roles → sign_role mapping ≠ None) →
     ∃ table, _admin_role_mapping AdobeGroup_create (Some admin_roles) = Ok table)
  ∧ _admin_role_mapping AdobeGroup_create None = Ok ∅.
Proof.
  split; [|split; [|done]]; simpl.
  - generalize (∅ : gmap string (gmap string (gset string))).
    induction admin_roles as [|m rest IH]; intros t (mapping & Hin & Hnone).
    + by apply elem_of_nil in Hin.
    + simpl. apply elem_of_cons in Hin as [<-|Hin]; [by rewrite Hnone|].
      destruct (sign_role m); [|done].
      destruct (adobe_groups m) as [[|? ?]|]; apply IH; by exists mapping.
  - generalize (∅ : gmap string (gmap string (gset string))).
    induction admin_roles as [|m rest IH]; intros t Hall; simpl; [by eexists|].
    destruct (sign_role m) eqn:Hm; [|by destruct (Hall m (list_elem_of_here _ _))].
    destruct (adobe_groups m) as [[|? ?]|]; apply IH; intros ? ?; apply Hall; by right.
Qed.
End ConfigTables.

Lemma admin_role_mapping_lookup_witness :
  _admin_role_mapping Model.AdobeGroup_create Scenario.admin_roles_config
  = Ok Scenario.admin_roles_table
  ∧ ("GROUP_ADMIN" ∈ default (∅ : gset string)
                       (default ∅ (Scenario.admin_roles_table !! "org2") !! "sales")
     ↔ ∃ mapping gs raw,
         mapping ∈ [{| sign_role := Some "ACCOUNT_ADMIN"; adobe_groups := Some ["Legal"] |};
                    {| sign_role := Some "GROUP_ADMIN";
                       adobe_groups := Some ["legal"; "org2::Sales"] |};
                    {| sign_role := Some "UNUSED"; adobe_groups := None |}]
         ∧ sign_role mapping = Some "GROUP_ADMIN"
         ∧ adobe_groups mapping = Some gs
         ∧ raw ∈ gs
         ∧ umapi_name (Model.AdobeGroup_create raw) = "org2"
         ∧ lower (group_name (Model.AdobeGroup_create raw)) = "sales").
Proof.
  assert (Htable : _admin_role_mapping Model.AdobeGroup_create Scenario.admin_roles_config
                   = Ok Scenario.admin_roles_table) by (vm_compute; reflexivity).
  split; [exact Htable|].
  exact (admin_role_mapping_lookup Model.AdobeGroup_create _ _ "org2" "sales" "GROUP_ADMIN"
           Htable).
Defined.

(** ** The engine as the constructor builds it *)

Lemma dict_keys_set {V} k (v : V) d :
  Dict.keys (Dict.set k v d) = if decide (k ∈ Dict.keys d) then Dict.keys d
                               else Dict.keys d ++ [k].
Proof.
  unfold Dict.keys. induction d as [|[k' v'] d IH]; [done|].
  cbn [Dict.set]. destruct (decide (k = k')) as [->|Hne]; rewrite !fmap_cons.
  - rewrite decide_True; [done|by left].
  - rewrite IH. cbn [fst]. destruct (decide (k ∈ d.*1)) as [Hin|Hout].
    + rewrite decide_True; [done|by right].
    + rewrite decide_False; [done|]. by intros [?|?]%elem_of_cons.
Qed.

Lemma find_fmap_filter {A B} (P : B → bool) (f : A → B) (Q : A → Prop)
    `{!∀ x, Decision (Q x)} (l : list A) :
  match List.find P (f <$> filter Q l) with
  | None => ∀ x, x ∈ l → Q x → P (f x) = false
  | Some y =>
      ∃ before x after,
        l = before ++ x :: after ∧ Q x ∧ y = f x ∧ P y = true
        ∧ ∀ x', x' ∈ before → Q x' → P (f x') = false
  end.
Proof.
  induction l as [|a l IH].
  - cbn. by intros x ?%elem_of_nil.
  - rewrite filter_cons. destruct (decide (Q a)) as [Ha|Ha]; [rewrite fmap_cons|];
      cbn [List.find].
    + destruct (P (f a)) eqn:HP.
      * exists [], a, l. repeat split; try done. by intros x ?%elem_of_nil.
      * destruct (List.find P (f <$> filter Q l)) as [y|].
        -- destruct IH as (before & x & after & -> & Hx & -> & Hy & Hbefore).
           exists (a :: before), x, after. repeat split; try done.
           intros x' [->|Hx']%elem_of_cons; [done|by apply Hbefore].
        -- intros x [->|Hx]%elem_of_cons; [done|by apply IH].
    + destruct (List.find P (f <$> filter Q l)) as [y|].
      * destruct IH as (before & x & after & -> & Hx & -> & Hy & Hbefore).
        exists (a :: before), x, after. repeat split; try done.
        intros x' [->|Hx']%elem_of_cons; [done|by apply Hbefore].
      * intros x [->|Hx]%elem_of_cons; [done|by apply IH].
Qed.

Section Constructor.
Variable AdobeGroup_create : string → AdobeGroup.

(** An engine that the constructor has built has exactly one connector for
    each [console_org] that [sign_orgs] mentions, however often it is
    mentioned: the keys of [self.connectors] are distinct and are the
    organizations of the configuration. *)
Theorem init_connectors caller_options self :
  init AdobeGroup_create caller_options = Ok self →
  NoDup (connectors self)
  ∧ ∀ org_name, org_name ∈ connectors self ↔ org_name ∈ cfg_sign_orgs caller_options.
Proof.
  unfold init.
  destruct (_admin_role_mapping _ _) as [table|e]; [|done]. intros [= <-].
  cbn [connectors].
  assert (Hfold : ∀ orgs (d : list (string * unit)),
             NoDup (Dict.keys d) →
             NoDup (Dict.keys (foldl (λ d org, Dict.set org tt d) d orgs))
             ∧ ∀ o, o ∈ Dict.keys (foldl (λ d org, Dict.set org tt d) d orgs)
                    ↔ o ∈ Dict.keys d ∨ o ∈ orgs).
  { induction orgs as [|org orgs IH]; intros d Hd; simpl.
    - split; [done|]. intros o. split; [by left|]. by intros [?|?%elem_of_nil].
    - destruct (IH (Dict.set org tt d)) as [Hnd Hmem].
      + rewrite dict_keys_set. case_decide; [done|].
        apply NoDup_app. split; [done|]. split; [|apply NoDup_singleton].
        by intros x Hx ->%list_elem_of_singleton.
      + split; [done|]. intros o. rewrite Hmem, dict_keys_set, elem_of_cons.
        case_decide as Hin.
        * split; [intros [?|?]; [by left|by right; right]|].
          intros [?|[->|?]]; [by left|by left|by right].
        * rewrite elem_of_app, list_elem_of_singleton.
          split; [intros [[?|?]|?]; [by left|by right; left|by right; right]|].
          intros [?|[?|?]]; [by left; left|by left; right|by right]. }
  destruct (Hfold (cfg_sign_orgs caller_options) []) as [Hnd Hmem]; [constructor|].
  split; [done|]. intros o. rewrite Hmem. split; [|by right].
  by intros [?%elem_of_nil|?].
Qed.

(** For an engine built by the constructor, [should_sync] answers yes
    exactly when some [entitlement_groups] entry names the organization and
    its group name, lower-cased, is one of the user's groups as the
    directory spells them, and the user's type is one of the configured
    identity types, or of the three standard ones when none is configured.
    An organization that no entry names syncs no user. *)
Theorem should_sync_from_config caller_options self umapi_user org_name :
  init AdobeGroup_create caller_options = Ok self →
  should_sync self umapi_user org_name = true
  ↔ (∃ raw, raw ∈ cfg_entitlement_groups caller_options
            ∧ umapi_name (AdobeGroup_create raw) = org_name
            ∧ lower (group_name (AdobeGroup_create raw)) ∈ groups umapi_user)
    ∧ type umapi_user ∈ default ["adobeID"; "enterpriseID"; "federatedID"]
                                (cfg_identity_types caller_options).
Proof.
  unfold init. destruct (_admin_role_mapping _ _) as [table|e]; [|done].
  intros [= <-]. rewrite should_sync_exact. cbn [entitlement_groups identity_types].
  unfold _groupify. rewrite groupify_fold, lookup_total_empty. simpl.
  apply and_iff_compat_r. split.
  - intros (g & Hg & (raw & -> & [Horg Hraw]%list_elem_of_filter)%list_elem_of_fmap).
    by exists raw.
  - intros (raw & Hraw & Horg & Hg).
    exists (lower (group_name (AdobeGroup_create raw))). split; [done|].
    apply list_elem_of_fmap. exists raw. split; [done|]. by apply list_elem_of_filter.
Qed.

(** For an engine built by the constructor, the assignment group of a user
    is the lower-cased group name of the first [user_groups] entry, in the
    order of the configuration, that names the organization and whose
    lower-cased name is one of the user's groups as the directory spells
    them; when there is no such entry, and so for every organization the
    configuration gives no candidates, it is the default group. *)
Theorem assignment_group_from_config caller_options self directory_user org_name :
  init AdobeGroup_create caller_options = Ok self →
  (assignment_group self directory_user org_name = DEFAULT_GROUP_NAME
   ∧ ∀ raw, raw ∈ default [] (cfg_user_groups caller_options) →
            umapi_name (AdobeGroup_create raw) = org_name →
            lower (group_name (AdobeGroup_create raw)) ∉ groups directory_user)
  ∨ ∃ before raw after,
      default [] (cfg_user_groups caller_options) = before ++ raw :: after
      ∧ umapi_name (AdobeGroup_create raw) = org_name
      ∧ assignment_group self directory_user org_name
        = lower (group_name (AdobeGroup_create raw))
      ∧ lower (group_name (AdobeGroup_create raw)) ∈ groups directory_user
      ∧ ∀ raw', raw' ∈ before →
                umapi_name (AdobeGroup_create raw') = org_name →
                lower (group_name (AdobeGroup_create raw')) ∉ groups directory_user.
Proof.
  unfold init. destruct (_admin_role_mapping _ _) as [table|e]; [|done].
  intros [= <-]. unfold assignment_group. cbn [user_groups].
  unfold _groupify. rewrite groupify_fold, lookup_total_empty. simpl.
  pose proof (find_fmap_filter
                (λ group, bool_decide (group ∈ groups directory_user))
                (λ g, lower (group_name (AdobeGroup_create g)))
                (λ g, umapi_name (AdobeGroup_create g) = org_name)
                (default [] (cfg_user_groups caller_options))) as Hfind.
  destruct (List.find _ _) as [g|].
  - destruct Hfind as (before & raw & after & Hsplit & Horg & -> & Hin & Hbefore).
    right. exists before, raw, after. split; [done|]. split; [done|]. split; [done|].
    split; [by apply bool_decide_eq_true in Hin|].
    intros raw' Hraw' Horg'. by eapply bool_decide_eq_false_1, Hbefore.
  - left. split; [done|]. intros raw Hraw Horg. by eapply bool_decide_eq_false_1, Hfind.
Qed.
End Constructor.

Lemma init_connectors_witness :
  init Model.AdobeGroup_create (Scenario.config false) = Ok (Scenario.engine false)
  ∧ NoDup (connectors (Scenario.engine false))
  ∧ ∀ org_name, org_name ∈ connectors (Scenario.engine false) ↔ org_name ∈ [""].
Proof.
  assert (Hinit : init Model.AdobeGroup_create (Scenario.config false)
                  = Ok (Scenario.engine false)) by (vm_compute; reflexivity).
  split; [exact Hinit|].
  exact (init_connectors Model.AdobeGroup_create (Scenario.config false)
           (Scenario.engine false) Hinit).
Defined.

Lemma should_sync_from_config_witness :
  init Model.AdobeGroup_create (Scenario.config false) = Ok (Scenario.engine false)
  ∧ (should_sync (Scenario.engine false)
       (Scenario.directory_user "n@x.com" "federatedID" ["everyone"]) "" = true
     ↔ (∃ raw, raw ∈ ["Everyone"]
               ∧ umapi_name (Model.AdobeGroup_create raw) = ""
               ∧ lower (group_name (Model.AdobeGroup_create raw)) ∈ ["everyone"])
       ∧ "federatedID" ∈ ["adobeID"; "enterpriseID"; "federatedID"]).
Proof.
  assert (Hinit : init Model.AdobeGroup_create (Scenario.config false)
                  = Ok (Scenario.engine false)) by (vm_compute; reflexivity).
  split; [exact Hinit|].
  exact (should_sync_from_config Model.AdobeGroup_create (Scenario.config false)
           (Scenario.engine false)
           (Scenario.directory_user "n@x.com" "federatedID" ["everyone"]) "" Hinit).
Defined.

Lemma assignment_group_from_config_witness :
  init Model.AdobeGroup_create (Scenario.config false) = Ok (Scenario.engine false)
  ∧ assignment_group (Scenario.engine false)
      (Scenario.directory_user "f@x.com" "federatedID" ["finance"; "everyone"]) ""
    = "finance".
Proof.
  assert (Hinit : init Model.AdobeGroup_create (Scenario.config false)
                  = Ok (Scenario.engine false)) by (vm_compute; reflexivity).
  split; [exact Hinit|].
  destruct (assignment_group_from_config Model.AdobeGroup_create (Scenario.config false)
              (Scenario.engine false)
              (Scenario.directory_user "f@x.com" "federatedID" ["finance"; "everyone"]) ""
              Hinit)
    as [[_ Hnone]|(before & raw & after & _ & _ & Hsel & _)].
  - exfalso. apply (Hnone "Finance"); [right; left|reflexivity|left].
  - vm_compute. reflexivity.
Defined.

(** ** Roles *)

(** [roles_match] compares the two role lists as multisets: it holds exactly
    when one is a rearrangement of the other, a single string counting as a
    one-element list.  So lists of different lengths never match, and for
    lists without repetitions it is equality of the sets of roles. *)
Theorem roles_match_multiset resolved_roles sign_roles :
  (roles_match resolved_roles sign_roles = true
   ↔ resolved_roles ≡ₚ role_list sign_roles)
  ∧ (length resolved_roles ≠ length (role_list sign_roles) →
     roles_match resolved_roles sign_roles = false)
  ∧ (NoDup resolved_roles → NoDup (role_list sign_roles) →
     (roles_match resolved_roles sign_roles = true
      ↔ ∀ r, r ∈ resolved_roles ↔ r ∈ role_list sign_roles)).
Proof.
  split; [apply roles_match_iff|]. split.
  - intros Hlen. apply not_true_is_false. intros Hm%roles_match_iff.
    by apply Permutation_length in Hm.
  - intros Hnd1 Hnd2. rewrite roles_match_iff. split.
    + intros Hperm r. by rewrite Hperm.
    + intros Hsame. by apply NoDup_Permutation.
Qed.

(** The roles that [resolve_new_roles] returns depend only on the set of the
    user's group names after lower-casing: the order of the groups, their
    repetition and their spelling in capitals or small letters change, at
    most, the order of the result. *)
Theorem resolve_new_roles_groups_set umapi_user1 umapi_user2
    (role_mapping : gmap string (gset string)) :
  (∀ g, g ∈ lower <$> groups umapi_user1 ↔ g ∈ lower <$> groups umapi_user2) →
  resolve_new_roles umapi_user1 role_mapping ≡ₚ resolve_new_roles umapi_user2 role_mapping.
Proof.
  intros Hsame. unfold resolve_new_roles.
  assert (Heq : foldl (λ (roles : gset string) group,
                         match role_mapping !! lower group with
                         | None => roles
                         | Some sign_roles => roles ∪ sign_roles
                         end) ∅ (groups umapi_user1)
                = foldl (λ (roles : gset string) group,
                           match role_mapping !! lower group with
                           | None => roles
                           | Some sign_roles => roles ∪ sign_roles
                           end) ∅ (groups umapi_user2)); [|by rewrite Heq].
  apply set_eq. intros r. rewrite !elem_of_collected_roles.
  assert (Hone : ∀ u1 u2,
             (∀ g, g ∈ lower <$> groups u1 → g ∈ lower <$> groups u2) →
             (∃ g sr, g ∈ groups u1 ∧ role_mapping !! lower g = Some sr ∧ r ∈ sr) →
             ∃ g sr, g ∈ groups u2 ∧ role_mapping !! lower g = Some sr ∧ r ∈ sr).
  { intros u1 u2 Hsub (g & sr & Hg & Hm & Hr).
    destruct (list_elem_of_fmap_1 lower (groups u2) (lower g)) as (g' & Hl & Hg').
    - apply Hsub. by apply list_elem_of_fmap_2.
    - exists g', sr. by rewrite <- Hl. }
  split; (intros [?|Hex]; [by left|right]).
  - apply (Hone umapi_user1 umapi_user2); [|done]. intros g. apply Hsame.
  - apply (Hone umapi_user2 umapi_user1); [|done]. intros g. apply Hsame.
Qed.

Lemma resolve_new_roles_groups_set_witness :
  resolve_new_roles (Scenario.directory_user "l@x.com" "federatedID" ["Legal"; "legal"; "LEGAL"])
    (default ∅ (Scenario.admin_roles_table !! ""))
  ≡ₚ resolve_new_roles (Scenario.directory_user "m@x.com" "federatedID" ["legal"])
       (default ∅ (Scenario.admin_roles_table !! "")).
Proof.
  apply (resolve_new_roles_groups_set
           (Scenario.directory_user "l@x.com" "federatedID" ["Legal"; "legal"; "LEGAL"])
           (Scenario.directory_user "m@x.com" "federatedID" ["legal"])).
  intros g. change (g ∈ ["legal"; "legal"; "legal"] ↔ g ∈ ["legal"]).
  rewrite !elem_of_cons. tauto.
Defined.

(** ** Identity keys: the complete table *)

Section UserKeyTable.
Variable normalize_string : option string → option string.
Variable parse_identity_type : option string → result (option string).

(** [get_user_key] yields a key exactly when the identity type parses to a
    non-empty type, the normalized username, or else the normalized email,
    is non-empty, and either that username holds an "@", in which case the
    domain part of the key is empty, or it holds none and the normalized
    domain is non-empty, in which case it is the domain part.  The key is
    never the empty string.  The only exception the method can end with is
    the one raised by the parsing of the identity type. *)
Theorem get_user_key_table id_type username domain email :
  (∀ k,
      get_user_key normalize_string parse_identity_type id_type username domain email
      = Ok (Some k)
      ↔ ∃ t u,
          parse_identity_type id_type = Ok (Some t) ∧ t ≠ ""
          ∧ (if truthy (normalize_string username) then normalize_string username
             else if truthy email then normalize_string email else None) = Some u
          ∧ u ≠ ""
          ∧ ((contains_char "@" u = true ∧ k = user_key t u "")
             ∨ (contains_char "@" u = false
                ∧ ∃ d, normalize_string domain = Some d ∧ d ≠ "" ∧ k = user_key t u d)))
  ∧ get_user_key normalize_string parse_identity_type id_type username domain email
    ≠ Ok (Some "")
  ∧ ∀ e,
      get_user_key normalize_string parse_identity_type id_type username domain email
      = Raise e
      ↔ parse_identity_type id_type = Raise e.
Proof.
  unfold get_user_key.
  set (resolved := if truthy (normalize_string username) then normalize_string username
                   else if truthy email then normalize_string email else None).
  destruct (parse_identity_type id_type) as [[[|c t]|]|e0].
  - split; [|split]; [|done|done]. intros k. split; [done|].
    by intros (t & u & [= <-] & ? & _).
  - cbn [truthy negb default from_option id].
    destruct resolved as [[|c' u]|] eqn:Hres; cbn [truthy negb default from_option id].
    + split; [|split]; [|done|done]. intros k. split; [done|].
      by intros (t' & u' & _ & _ & [= <-] & ? & _).
    + destruct (contains_char "@" (String c' u)) eqn:Hat.
      * split; [|split]; [|by intros [= Hk]|done]. intros k. split.
        -- intros [= <-]. exists (String c t), (String c' u).
           repeat split; try done. by left.
        -- intros (t' & u' & [= <-] & _ & [= <-] & _ & [[_ ->]|[Hno _]]); [done|].
           by rewrite Hat in Hno.
      * destruct (normalize_string domain) as [[|c'' d]|] eqn:Hdom;
          cbn [truthy negb default from_option id].
        -- split; [|split]; [|done|done]. intros k. split; [done|].
           intros (t' & u' & [= <-] & _ & [= <-] & _ & [[Hyes _]|(_ & d & [= <-] & ? & _)]);
             [by rewrite Hat in Hyes|done].
        -- split; [|split]; [|by intros [= Hk]|done]. intros k. split.
           ++ intros [= <-]. exists (String c t), (String c' u).
              repeat split; try done. right. split; [done|].
              by exists (String c'' d).
           ++ intros (t' & u' & [= <-] & _ & [= <-] & _ & [[Hyes _]|(_ & d' & [= <-] & _ & ->)]);
                [by rewrite Hat in Hyes|done].
        -- split; [|split]; [|done|done]. intros k. split; [done|].
           intros (t' & u' & [= <-] & _ & [= <-] & _ & [[Hyes _]|(_ & d & ? & _)]);
             [by rewrite Hat in Hyes|done].
    + split; [|split]; [|done|done]. intros k. split; [done|].
      by intros (t' & u' & _ & _ & ? & _).
  - split; [|split]; [|done|done]. intros k. split; [done|].
    by intros (t & u & ? & _).
  - split; [|split]; [|done|].
    + intros k. split; [done|]. by intros (t & u & ? & _).
    + intros e. split; by intros [= <-].
Qed.
End UserKeyTable.

(** ** What a computation leaves unchanged *)

#[global] Instance same_except_refl {C} h : Reflexive (same_except (C := C) h).
Proof. by intros w. Qed.

#[global] Instance same_except_trans {C} h : Transitive (same_except (C := C) h).
Proof.
  intros w1 w2 w3 (Hc & Hd & Hs) (Hc' & Hd' & Hs'). split; [|split]; [|congruence..].
  intros k Hk. by rewrite Hc', Hc.
Qed.

#[global] Instance same_consoles_refl {C} : Reflexive (same_consoles (C := C)).
Proof. by intros w. Qed.

#[global] Instance same_consoles_trans {C} : Transitive (same_consoles (C := C)).
Proof. intros w1 w2 w3 (? & ? & ?) (? & ? & ?). split; [|split]; congruence. Qed.

Section Preserves.
Context {C : Type} `{!SignConnector C}.
Variable R : relation (World C).
Context `{!Reflexive R, !Transitive R}.

Lemma preserves_ret {A} (a : A) : preserves R (mret (M := M C) a).
Proof. intros w. reflexivity. Qed.

Lemma preserves_bind {A B} (m : M C A) (k : A → M C B) :
  preserves R m → (∀ a, preserves R (k a)) → preserves R (m ≫= k).
Proof.
  intros Hm Hk w. rewrite run_bind. specialize (Hm w).
  destruct (m w) as [[a|e] w1]; [|done]. etrans; [exact Hm|apply Hk].
Qed.

Lemma preserves_try_except {A} (body : M C A) cls handler :
  preserves R body → (∀ e, preserves R (handler e)) →
  preserves R (try_except body cls handler).
Proof.
  intros Hb Hh w. unfold try_except. specialize (Hb w).
  destruct (body w) as [[a|e] w1]; [done|]. destruct (cls e); [|done].
  etrans; [exact Hb|apply Hh].
Qed.

Lemma preserves_for_each {A} (l : list A) (body : A → M C unit) :
  (∀ x, x ∈ l → preserves R (body x)) → preserves R (for_each l body).
Proof.
  induction l as [|x l IH]; intros Hbody; cbn [for_each]; [apply preserves_ret|].
  apply (preserves_bind (body x) (λ _, for_each l body)).
  - apply Hbody. by left.
  - intros _. apply IH. intros y Hy. apply Hbody. by right.
Qed.
End Preserves.

Section Locality.
Context {C : Type} `{!SignConnector C}.

Lemma local_log h lvl tpl a : preserves (C := C) (same_except h) (log lvl tpl a).
Proof. by intros w. Qed.

Lemma local_call {A} h c (op : C → outcome A * C) : preserves (same_except h) (call h c op).
Proof.
  intros w. unfold call. destruct (op _) as [r s]. split; [|done].
  intros k Hk. simpl. by rewrite decide_False.
Qed.

Lemma local_update_sign_user self h org_name sign_users directory_user :
  preserves (C := C) (same_except h)
    (update_sign_user self h org_name sign_users directory_user).
Proof.
  unfold update_sign_user. destruct (should_sync _ _ _); simpl; [|by apply preserves_ret].
  apply preserves_bind; [apply _..|apply local_call|]. intros group_id.
  apply preserves_bind; [apply _..| |].
  - destruct (_ && _); [|by apply preserves_ret]. unfold insert_new_users.
    apply preserves_try_except; [apply _..| |intros e; apply local_log].
    apply preserves_bind; [apply _..|apply local_call|intros _; apply local_log].
  - intros _. destruct (Dict.get _ _) as [sign_user|]; [|by apply preserves_ret].
    unfold update_existing_users. destruct (_ && _); [apply local_log|].
    apply preserves_try_except; [apply _..| |intros e; apply local_log].
    apply preserves_bind; [apply _..|apply local_call|intros _; apply local_log].
Qed.

Lemma local_deactivate_user h sign_user :
  preserves (C := C) (same_except h) (deactivate_user h sign_user).
Proof.
  unfold deactivate_user.
  apply preserves_try_except; [apply _..|apply local_call|intros e; apply local_log].
Qed.

(** The two passes over an organization work on the connector they are
    given and on nothing else: every call they issue is recorded under that
    connector, no other connector changes state, the directory is not read
    and [directory_user_by_user_key] is not modified, whatever the outcome
    of the pass. *)
Theorem org_passes_local self directory_users sign_connector org_name (w : World C) :
  (same_except sign_connector w
     (update_sign_users self directory_users sign_connector org_name w).2
   ∧ ∃ new,
       w_calls (update_sign_users self directory_users sign_connector org_name w).2
       = w_calls w ++ new
       ∧ Forall (λ c, c.1 = sign_connector) new)
  ∧ (same_except sign_connector w
       (deactivate_sign_users directory_users sign_connector w).2
     ∧ ∃ new,
         w_calls (deactivate_sign_users directory_users sign_connector w).2
         = w_calls w ++ new
         ∧ Forall (λ c, c.1 = sign_connector) new).
Proof.
  split; split.
  - apply (preserves_bind (same_except sign_connector)); [apply local_call|].
    intros sign_users. apply preserves_for_each; [apply _..|].
    intros du _. apply local_update_sign_user.
  - apply (emits_bind (λ c, c.1 = sign_connector)); [by apply emits_call|].
    intros sign_users. apply emits_for_each. intros du _.
    by apply update_sign_user_emits.
  - apply (preserves_bind (same_except sign_connector)); [apply local_call|].
    intros sign_users. apply preserves_for_each; [apply _..|].
    intros su _. destruct (negb _); [apply local_deactivate_user|by apply preserves_ret].
  - apply (emits_bind (λ c, c.1 = sign_connector)); [by apply emits_call|].
    intros sign_users. apply emits_for_each. intros su _.
    destruct (negb _); [|apply emits_ret]. unfold deactivate_user.
    apply emits_try_except; [by apply emits_call|intros e; apply emits_log].
Qed.
End Locality.

(** ** The three per-user operations *)

Section Operations.
Context {C : Type} `{!SignConnector C}.

(** [insert_new_users] issues exactly one insert request, built from the
    directory record (email, first and last name) and the resolved group id
    and roles.  It never raises: an accepted request is logged at info
    level, a refused one at error level with the message of the failure. *)
Theorem insert_new_users_outcome sign_connector directory_user user_roles group_id
    assignment_group (w : World C) r s :
  insert_user {| p_email := email directory_user;
                 p_firstName := firstname directory_user;
                 p_groupId := group_id;
                 p_lastName := lastname directory_user;
                 p_roles := user_roles |} (w_conn w sign_connector) = (r, s) →
  ∃ w',
    insert_new_users sign_connector directory_user user_roles group_id assignment_group w
    = (Ok tt, w')
    ∧ w_calls w' = w_calls w
        ++ [(sign_connector,
             CallInsertUser {| p_email := email directory_user;
                               p_firstName := firstname directory_user;
                               p_groupId := group_id;
                               p_lastName := lastname directory_user;
                               p_roles := user_roles |})]
    ∧ w_conn w' sign_connector = s
    ∧ w_log w' = w_log w
        ++ [match r with
            | Done _ =>
                {| level := INFO;
                   template := "Inserted Sign user '{}', Group: '{}', Roles: {}";
                   args := [AStr (email directory_user); AStr assignment_group;
                            ARoles user_roles] |}
            | Failed msg => {| level := ERROR; template := "{}"; args := [AStr msg] |}
            end].
Proof.
  intros Hop. unfold insert_new_users, try_except. rewrite run_bind. unfold call.
  rewrite Hop. destruct r as [[]|msg]; simpl.
  - eexists. split; [reflexivity|]. simpl. by rewrite decide_True.
  - eexists. split; [reflexivity|]. simpl. by rewrite decide_True.
Qed.

(** [deactivate_user] issues exactly one request, for the user id of the
    target user and with the status INACTIVE.  It never raises: an accepted
    request leaves the log as it is, a refused one is logged at error level
    with the email of the user and the message of the failure. *)
Theorem deactivate_user_outcome sign_connector sign_user (w : World C) r s :
  deactivate_user_api (su_userId sign_user) [("userStatus", "INACTIVE")]
    (w_conn w sign_connector) = (r, s) →
  ∃ w',
    deactivate_user sign_connector sign_user w = (Ok tt, w')
    ∧ w_calls w' = w_calls w
        ++ [(sign_connector,
             CallDeactivateUser (su_userId sign_user) [("userStatus", "INACTIVE")])]
    ∧ w_conn w' sign_connector = s
    ∧ w_log w' = w_log w
        ++ match r with
           | Done _ => []
           | Failed msg =>
               [{| level := ERROR; template := "Error deactivating user {}, {}";
                   args := [AStr (su_email sign_user); AStr msg] |}]
           end.
Proof.
  intros Hop. unfold deactivate_user, try_except, call. rewrite Hop.
  destruct r as [[]|msg]; simpl.
  - eexists. split; [reflexivity|]. simpl. rewrite decide_True by done.
    by rewrite app_nil_r.
  - eexists. split; [reflexivity|]. simpl. by rewrite decide_True.
Qed.

(** When the target user's group, lower-cased, differs from the assignment
    group, or its roles are not a rearrangement of the resolved roles,
    [update_existing_users] issues exactly one update request, whatever its
    outcome.  The request keeps the email and the names of the target
    record and carries the resolved group id and roles; when it is accepted
    the method returns normally and logs at info level. *)
Theorem update_existing_users_request sign_connector sign_user directory_user group_id
    user_roles assignment_group (w : World C) :
  lower (su_group sign_user) ≠ assignment_group
  ∨ ¬ user_roles ≡ₚ role_list (su_roles sign_user) →
  w_calls (update_existing_users sign_connector sign_user directory_user group_id
             user_roles assignment_group w).2
  = w_calls w
      ++ [(sign_connector,
           CallUpdateUser (su_userId sign_user)
             {| p_email := su_email sign_user;
                p_firstName := su_firstName sign_user;
                p_groupId := group_id;
                p_lastName := su_lastName sign_user;
                p_roles := user_roles |})]
  ∧ ∀ s,
      update_user (su_userId sign_user)
        {| p_email := su_email sign_user; p_firstName := su_firstName sign_user;
           p_groupId := group_id; p_lastName := su_lastName sign_user;
           p_roles := user_roles |} (w_conn w sign_connector) = (Done tt, s) →
      (update_existing_users sign_connector sign_user directory_user group_id
         user_roles assignment_group w).1 = Ok tt
      ∧ w_log (update_existing_users sign_connector sign_user directory_user group_id
                 user_roles assignment_group w).2
        = w_log w
            ++ [{| level := INFO;
                   template := "Updated Sign user '{}', Group: '{}', Roles: {}";
                   args := [AStr (email directory_user); AStr assignment_group;
                            ARoles user_roles] |}].
Proof.
  intros Hdiff. unfold update_existing_users.
  assert (Hcond : bool_decide (lower (su_group sign_user) = assignment_group)
                  && roles_match user_roles (su_roles sign_user) = false).
  { apply andb_false_iff. destruct Hdiff as [Hg|Hr].
    - left. by apply bool_decide_eq_false.
    - right. apply not_true_is_false. by rewrite roles_match_iff. }
  rewrite Hcond. unfold try_except. rewrite run_bind. unfold call.
  destruct (update_user _ _ _) as [[[]|msg] s0]; simpl.
  - split; [done|]. by intros s _.
  - split; [done|]. by intros s [=].
Qed.
End Operations.

Lemma insert_new_users_outcome_witness :
  ∃ w',
    insert_new_users "" (Scenario.directory_user "n@x.com" "federatedID" ["everyone"])
      ["NORMAL_USER"] "default group" "default group"
      (Model.world0 (λ _, Scenario.console ["n@x.com"])) = (Ok tt, w')
    ∧ w_log w' = [{| level := ERROR; template := "{}";
                     args := [AStr "cannot insert n@x.com"] |}].
Proof.
  destruct (insert_new_users_outcome ""
              (Scenario.directory_user "n@x.com" "federatedID" ["everyone"])
              ["NORMAL_USER"] "default group" "default group"
              (Model.world0 (λ _, Scenario.console ["n@x.com"]))
              (Failed "cannot insert n@x.com") (Scenario.console ["n@x.com"]))
    as (w' & Hrun & _ & _ & Hlog); [vm_compute; reflexivity|].
  exists w'. split; [exact Hrun|exact Hlog].
Defined.

Lemma deactivate_user_outcome_witness :
  ∃ w',
    deactivate_user "" (Scenario.sign_user "b@x.com" "id-b" "Finance" (RoleList ["NORMAL_USER"]))
      (Model.world0 (λ _, Scenario.console ["id-b"])) = (Ok tt, w')
    ∧ w_log w' = [{| level := ERROR; template := "Error deactivating user {}, {}";
                     args := [AStr "b@x.com"; AStr "cannot deactivate id-b"] |}].
Proof.
  destruct (deactivate_user_outcome ""
              (Scenario.sign_user "b@x.com" "id-b" "Finance" (RoleList ["NORMAL_USER"]))
              (Model.world0 (λ _, Scenario.console ["id-b"]))
              (Failed "cannot deactivate id-b") (Scenario.console ["id-b"]))
    as (w' & Hrun & _ & _ & Hlog); [vm_compute; reflexivity|].
  exists w'. split; [exact Hrun|exact Hlog].
Defined.

Lemma update_existing_users_request_witness :
  w_calls (update_existing_users ""
             (Scenario.sign_user "a@x.com" "id-a" "Finance" (RoleStr "NORMAL_USER"))
             (Scenario.directory_user "A@x.com" "federatedID" ["everyone"])
             "default group" ["NORMAL_USER"] "default group"
             (Model.world0 (λ _, Scenario.console []))).2
  = [("", CallUpdateUser "id-a"
            {| p_email := "a@x.com"; p_firstName := "First"; p_groupId := "default group";
               p_lastName := "Last"; p_roles := ["NORMAL_USER"] |})].
Proof.
  apply (update_existing_users_request ""
           (Scenario.sign_user "a@x.com" "id-a" "Finance" (RoleStr "NORMAL_USER"))
           (Scenario.directory_user "A@x.com" "federatedID" ["everyone"])
           "default group" ["NORMAL_USER"] "default group"
           (Model.world0 (λ _, Scenario.console []))).
  left. discriminate.
Defined.

(** ** The passes over one organization: edge cases *)

Section PassEdges.
Context {C : Type} `{!SignConnector C}.

(** When no directory user passes [should_sync] for the organization, the
    create/update pass reads the target users and does nothing else: no
    group is looked up, no user is inserted or updated, nothing is logged. *)
Theorem update_sign_users_nobody_eligible self directory_users sign_connector org_name
    (w : World C) sign_users s :
  get_users (w_conn w sign_connector) = (Done sign_users, s) →
  (∀ directory_user, directory_user ∈ Dict.values directory_users →
                     should_sync self directory_user org_name = false) →
  ∃ w',
    update_sign_users self directory_users sign_connector org_name w = (Ok tt, w')
    ∧ w_calls w' = w_calls w ++ [(sign_connector, CallGetUsers)]
    ∧ w_log w' = w_log w.
Proof.
  intros Hget Hnone. unfold update_sign_users. rewrite run_bind. unfold call at 1.
  rewrite Hget.
  assert (Hloop : ∀ l (w0 : World C),
             (∀ du, du ∈ l → should_sync self du org_name = false) →
             for_each l (update_sign_user self sign_connector org_name sign_users) w0
             = (Ok tt, w0)).
  { induction l as [|du l IH]; intros w0 Hl; [done|].
    cbn [for_each]. unfold bind. unfold update_sign_user at 1.
    rewrite (Hl du) by by left. simpl. apply IH. intros du' Hdu'. apply Hl. by right. }
  rewrite Hloop by done. by eexists.
Qed.

(** When the directory dictionary is empty, the deactivation sweep issues a
    deactivate request for every user the target lists. *)
Theorem deactivate_sign_users_empty_directory sign_connector (w : World C) sign_users s :
  get_users (w_conn w sign_connector) = (Done sign_users, s) →
  ∃ w',
    deactivate_sign_users [] sign_connector w = (Ok tt, w')
    ∧ w_calls w' = w_calls w ++ (sign_connector, CallGetUsers)
        :: ((λ sign_user,
               (sign_connector,
                CallDeactivateUser (su_userId sign_user) [("userStatus", "INACTIVE")]))
              <$> Dict.values sign_users).
Proof.
  intros Hget. unfold deactivate_sign_users. rewrite run_bind. unfold call at 1.
  rewrite Hget.
  match goal with |- context [for_each ?l ?f ?w0] =>
    destruct (deactivate_loop_calls sign_connector [] (Dict.values sign_users) w0)
      as (w' & Hrun & Hc)
  end.
  exists w'. split; [exact Hrun|]. rewrite Hc. cbn [w_calls].
  rewrite <- app_assoc. do 3 f_equal. clear Hrun Hc.
  induction (Dict.values sign_users) as [|su l IH]; [done|].
  rewrite filter_cons, decide_True by (by intros ?%elem_of_nil). by rewrite IH.
Qed.

(** When the target users cannot be read, each pass ends with the failure
    of that read, and the read is the only call it has issued. *)
Theorem target_read_failure self directory_users sign_connector org_name
    (w : World C) msg s :
  get_users (w_conn w sign_connector) = (Failed msg, s) →
  (update_sign_users self directory_users sign_connector org_name w).1
  = Raise (AssertionException msg)
  ∧ w_calls (update_sign_users self directory_users sign_connector org_name w).2
    = w_calls w ++ [(sign_connector, CallGetUsers)]
  ∧ (deactivate_sign_users directory_users sign_connector w).1
    = Raise (AssertionException msg)
  ∧ w_calls (deactivate_sign_users directory_users sign_connector w).2
    = w_calls w ++ [(sign_connector, CallGetUsers)].
Proof.
  intros Hget. unfold update_sign_users, deactivate_sign_users.
  rewrite !run_bind. unfold call. by rewrite Hget.
Qed.
End PassEdges.

Lemma update_sign_users_nobody_eligible_witness :
  ∃ w',
    update_sign_users (Scenario.engine false)
      [("federatedID,a@x.com,", Scenario.outsider)] "" ""
      (Model.world0 (λ _, Scenario.console [])) = (Ok tt, w')
    ∧ w_calls w' = [("", CallGetUsers)].
Proof.
  destruct (update_sign_users_nobody_eligible (Scenario.engine false)
              [("federatedID,a@x.com,", Scenario.outsider)] "" ""
              (Model.world0 (λ _, Scenario.console [])) Scenario.roster
              (Scenario.console [])) as (w' & Hrun & Hcalls & _).
  - reflexivity.
  - intros du ->%list_elem_of_singleton. vm_compute. reflexivity.
  - exists w'. split; [exact Hrun|exact Hcalls].
Defined.

Lemma deactivate_sign_users_empty_directory_witness :
  ∃ w',
    deactivate_sign_users [] "" (Model.world0 (λ _, Scenario.console [])) = (Ok tt, w')
    ∧ w_calls w' = [("", CallGetUsers);
                    ("", CallDeactivateUser "id-a" [("userStatus", "INACTIVE")]);
                    ("", CallDeactivateUser "id-b" [("userStatus", "INACTIVE")])].
Proof.
  destruct (deactivate_sign_users_empty_directory ""
              (Model.world0 (λ _, Scenario.console [])) Scenario.roster
              (Scenario.console [])) as (w' & Hrun & Hcalls); [reflexivity|].
  exists w'. split; [exact Hrun|exact Hcalls].
Defined.

Lemma target_read_failure_witness :
  (update_sign_users (Scenario.engine false) Scenario.both_listed "" ""
     Model.offline_world).1 = Raise (AssertionException "offline")
  ∧ w_calls (deactivate_sign_users Scenario.both_listed "" Model.offline_world).2
    = [("", CallGetUsers)].
Proof.
  destruct (target_read_failure (Scenario.engine false) Scenario.both_listed "" ""
              Model.offline_world "offline" Model.offline)
    as (Hres & _ & _ & Hcalls); [reflexivity|].
  split; [exact Hres|exact Hcalls].
Defined.

(** ** The directory read and the run *)

#[global] Instance same_directory_refl {C} : Reflexive (same_directory (C := C)).
Proof. by intros w. Qed.

#[global] Instance same_directory_trans {C} : Transitive (same_directory (C := C)).
Proof. intros w1 w2 w3 (? & ?) (? & ?). split; congruence. Qed.

Lemma preserves_weaken {C A} (R R' : relation (World C)) (m : M C A) :
  (∀ w w', R w w' → R' w w') → preserves R m → preserves R' m.
Proof. intros Hsub Hm w. apply Hsub, Hm. Qed.

Lemma same_except_directory {C} h (w w' : World C) :
  same_except h w w' → same_directory w w'.
Proof. by intros (_ & ? & ?). Qed.

Lemma dict_keys_set_mono {V} k (v : V) d k' :
  k' ∈ Dict.keys d → k' ∈ Dict.keys (Dict.set k v d).
Proof.
  rewrite dict_keys_set. case_decide; [done|]. intros ?. apply elem_of_app. by left.
Qed.

Lemma dict_keys_set_NoDup {V} k (v : V) d :
  NoDup (Dict.keys d) → NoDup (Dict.keys (Dict.set k v d)).
Proof.
  rewrite dict_keys_set. case_decide; [done|]. intros Hnd.
  apply NoDup_app. split; [done|]. split; [|apply NoDup_singleton].
  by intros x Hx ->%list_elem_of_singleton.
Qed.

Lemma dict_values_set {V} k (v v' : V) d :
  v' ∈ Dict.values (Dict.set k v d) → v' = v ∨ v' ∈ Dict.values d.
Proof.
  unfold Dict.values. induction d as [|[k0 v0] d IH]; cbn [Dict.set].
  - rewrite fmap_cons. intros [->|?]%elem_of_cons; [by left|by right].
  - destruct (decide (k = k0)); rewrite !fmap_cons, !elem_of_cons; cbn [snd].
    + intros [->|?]; [by left|by right; right].
    + intros [->|Hin]; [by right; left|]. destruct (IH Hin); [by left|by right; right].
Qed.

Section Run.
Context {C : Type} `{!SignConnector C}.
Variable normalize_string : option string → option string.
Variable parse_identity_type : option string → result (option string).

Lemma quiet_read_loop self loaded :
  preserves (C := C) same_consoles
    (for_each loaded (λ directory_user,
       user_key ← get_directory_user_key normalize_string parse_identity_type self
                    directory_user;
       if negb (truthy user_key) then
         log WARNING "Ignoring directory user with empty user key: %s" [AUser directory_user]
       else
         store_directory_user (default "" user_key) directory_user)).
Proof.
  apply preserves_for_each; [apply _..|]. intros du _ w.
  destruct (read_turn normalize_string parse_identity_type self du w)
    as (w' & -> & Hc & Hn & Hd & _). by split.
Qed.

(** The world that [read_desired_user_groups] leaves, whatever its outcome. *)
Lemma read_desired_user_groups_frame self mappings directory_connector (w : World C) :
  same_consoles
    {| w_conn := w_conn w; w_calls := w_calls w;
       w_dir_calls := w_dir_calls w
         ++ [{| dc_groups :=
                  match list_to_set <$> directory_group_filter self with
                  | Some f => dom mappings ∪ f
                  | None => dom mappings
                  end;
                dc_extended_attributes := extended_attributes self;
                dc_all_users :=
                  bool_decide ((list_to_set <$> directory_group_filter self
                                : option (gset string)) = None) |}];
       w_log := w_log w;
       w_directory_user_by_user_key := w_directory_user_by_user_key w |}
    (read_desired_user_groups normalize_string parse_identity_type self mappings
       directory_connector w).2.
Proof.
  unfold read_desired_user_groups. rewrite run_bind. cbn [log]. rewrite run_bind.
  unfold call_directory at 1.
  destruct (directory_connector _) as [loaded|msg]; [|done].
  rewrite run_bind.
  match goal with |- context [for_each loaded ?f ?w0] =>
    pose proof (quiet_read_loop self loaded w0) as Hloop;
    destruct (for_each loaded f w0) as [[[]|e] w1]
  end; exact Hloop.
Qed.

(** The dictionary that [read_desired_user_groups] returns is the engine's
    own [directory_user_by_user_key]: the read adds to what it held and
    overwrites, and removes nothing.  Every key it held is still a key, the
    keys stay distinct, and every user in it was either there before or has
    just been returned by the directory.  No console is called. *)
Theorem read_desired_user_groups_accumulates self mappings directory_connector
    (w w1 : World C) directory_users :
  read_desired_user_groups normalize_string parse_identity_type self mappings
    directory_connector w = (Ok (Some directory_users), w1) →
  w_directory_user_by_user_key w1 = directory_users
  ∧ (∀ k, k ∈ Dict.keys (w_directory_user_by_user_key w) → k ∈ Dict.keys directory_users)
  ∧ (NoDup (Dict.keys (w_directory_user_by_user_key w)) → NoDup (Dict.keys directory_users))
  ∧ (∃ c loaded,
        directory_connector c = Done loaded
        ∧ ∀ directory_user,
            directory_user ∈ Dict.values directory_users →
            directory_user ∈ Dict.values (w_directory_user_by_user_key w)
            ∨ directory_user ∈ loaded)
  ∧ w_calls w1 = w_calls w
  ∧ w_conn w1 = w_conn w.
Proof.
  intros Hread.
  pose proof (read_desired_user_groups_frame self mappings directory_connector w) as Hframe.
  rewrite Hread in Hframe. destruct Hframe as (Hconn & Hcalls & _). simpl in Hconn, Hcalls.
  unfold read_desired_user_groups in Hread. rewrite run_bind in Hread.
  cbn [log] in Hread. rewrite run_bind in Hread. unfold call_directory at 1 in Hread.
  match type of Hread with context [directory_connector ?c0] => set (c := c0) in * end.
  destruct (directory_connector c) as [loaded|msg] eqn:Hdc; [|done].
  rewrite run_bind in Hread.
  match type of Hread with context [for_each loaded ?f ?w0] =>
    destruct (for_each loaded f w0) as [[[]|e] w'] eqn:Hloop; [|done]
  end.
  apply read_loop in Hloop as (_ & _ & _ & Hs). simpl in Hs.
  unfold read_directory_user_by_user_key in Hread. rewrite run_bind in Hread.
  injection Hread as <- <-.
  split; [done|]. rewrite Hs.
  assert (Hfold : ∀ l d,
             (∀ k, k ∈ Dict.keys d →
                   k ∈ Dict.keys (foldl (admit_directory_user normalize_string
                                           parse_identity_type self) d l))
             ∧ (NoDup (Dict.keys d) →
                NoDup (Dict.keys (foldl (admit_directory_user normalize_string
                                           parse_identity_type self) d l)))
             ∧ ∀ du, du ∈ Dict.values (foldl (admit_directory_user normalize_string
                                                parse_identity_type self) d l) →
                     du ∈ Dict.values d ∨ du ∈ l).
  { induction l as [|u l IH]; intros d; cbn [foldl].
    - split; [done|]. split; [done|]. by left.
    - destruct (IH (admit_directory_user normalize_string parse_identity_type self d u))
        as (Hk & Hnd & Hv).
      unfold admit_directory_user in Hk, Hnd, Hv |- *.
      destruct (directory_user_key _ _ _ _) as [[[|c0 k0]|]|e0]; cbn [foldl].
      all: try (split; [done|]; split; [done|]; intros du Hdu;
                destruct (Hv du Hdu); [by left|by right; right]).
      split; [|split].
      + intros k Hin. by apply Hk, dict_keys_set_mono.
      + intros Hd. by apply Hnd, dict_keys_set_NoDup.
      + intros du Hdu. destruct (Hv du Hdu) as [Hset|?]; [|by right; right].
        apply dict_values_set in Hset as [->|?]; [right; by left|by left]. }
  destruct (Hfold loaded (w_directory_user_by_user_key w)) as (Hk & Hnd & Hv).
  split; [done|]. split; [done|]. split; [|done]. by exists c, loaded.
Qed.

(** A run outside test mode whose directory read fails ends with that
    failure before any console is called: the record of calls, the
    connectors and the dictionary are as they were. *)
Theorem run_directory_failure self directory_groups directory_connector (w : World C) msg :
  test_mode self = false →
  directory_connector
    {| dc_groups := match list_to_set <$> directory_group_filter self with
                    | Some f => dom directory_groups ∪ f
                    | None => dom directory_groups
                    end;
       dc_extended_attributes := extended_attributes self;
       dc_all_users := bool_decide ((list_to_set <$> directory_group_filter self
                                     : option (gset string)) = None) |}
  = Failed msg →
  ∃ w',
    run normalize_string parse_identity_type self directory_groups directory_connector w
    = (Raise (AssertionException msg), w')
    ∧ w_calls w' = w_calls w
    ∧ w_conn w' = w_conn w
    ∧ w_directory_user_by_user_key w' = w_directory_user_by_user_key w.
Proof.
  intros Htest Hfail. unfold run. rewrite Htest, run_bind.
  unfold read_desired_user_groups. rewrite run_bind. cbn [log]. rewrite run_bind.
  unfold call_directory at 1. rewrite Hfail. by eexists.
Qed.

Lemma local_update_sign_users self directory_users h org_name :
  preserves (C := C) (same_except h) (update_sign_users self directory_users h org_name).
Proof.
  apply (preserves_bind (same_except h)); [apply local_call|].
  intros sign_users. apply preserves_for_each; [apply _..|].
  intros du _. apply local_update_sign_user.
Qed.

Lemma local_deactivate_sign_users directory_users h :
  preserves (C := C) (same_except h) (deactivate_sign_users directory_users h).
Proof.
  apply (preserves_bind (same_except h)); [apply local_call|].
  intros sign_users. apply preserves_for_each; [apply _..|].
  intros su _. destruct (negb _); [apply local_deactivate_user|by apply preserves_ret].
Qed.

(** A run outside test mode reads the directory exactly once, with the
    groups of the mapping, and of the filter when there is one, asking for
    all users exactly when there is no filter; this whatever the outcome of
    the run.  The passes over the organizations never modify the dictionary
    that the read has filled. *)
Theorem run_reads_directory_once self directory_groups directory_connector (w : World C) :
  test_mode self = false →
  w_dir_calls (run normalize_string parse_identity_type self directory_groups
                 directory_connector w).2
  = w_dir_calls w
      ++ [{| dc_groups := match list_to_set <$> directory_group_filter self with
                          | Some f => dom directory_groups ∪ f
                          | None => dom directory_groups
                          end;
             dc_extended_attributes := extended_attributes self;
             dc_all_users := bool_decide ((list_to_set <$> directory_group_filter self
                                           : option (gset string)) = None) |}]
  ∧ w_directory_user_by_user_key
      (run normalize_string parse_identity_type self directory_groups
         directory_connector w).2
    = w_directory_user_by_user_key
        (read_desired_user_groups normalize_string parse_identity_type self
           directory_groups directory_connector w).2.
Proof.
  intros Htest. unfold run. rewrite Htest, run_bind.
  destruct (read_desired_user_groups_frame self directory_groups directory_connector w)
    as (_ & _ & Hdir). simpl in Hdir.
  destruct (read_desired_user_groups _ _ _ _ _ w) as [[[snap|]|e] w1]; simpl in Hdir |- *;
    [|done..].
  match goal with |- context [for_each ?l ?f w1] =>
    assert (Hloop : preserves same_directory (for_each l f))
  end.
  { apply preserves_for_each; [apply _..|]. intros org_name _.
    apply (preserves_weaken (same_except org_name)); [apply same_except_directory|].
    apply (preserves_bind (same_except org_name)); [apply local_call|].
    intros existing. apply (preserves_bind (same_except org_name)).
    - apply preserves_for_each; [apply _..|]. intros g _.
      apply (preserves_bind (same_except org_name)); [apply local_log|].
      intros _. apply local_call.
    - intros _. apply (preserves_bind (same_except org_name));
        [apply local_update_sign_users|].
      intros _. destruct (deactivate_sign_only_users self);
        [apply local_deactivate_sign_users|by apply preserves_ret]. }
  destruct (Hloop w1) as [Hd Hs]. by rewrite Hd, Hs.
Qed.

Lemma update_sign_user_emits_flag P self h org_name sign_users directory_user :
  (∀ name, P (h, CallGetGroup name)) →
  (create_new_users self = true → ∀ data, P (h, CallInsertUser data)) →
  (∀ user_id data, P (h, CallUpdateUser user_id data)) →
  emits (C := C) P (update_sign_user self h org_name sign_users directory_user).
Proof.
  intros Hgroup Hinsert Hupdate. unfold update_sign_user.
  destruct (should_sync _ _ _); simpl; [|apply emits_ret].
  apply emits_bind; [by apply emits_call|]. intros group_id.
  apply emits_bind.
  - destruct (create_new_users self); simpl; [|apply emits_ret].
    destruct (bool_decide _); [|apply emits_ret].
    apply emits_insert_new_users. by apply Hinsert.
  - intros _. destruct (Dict.get _ _) as [sign_user|]; [|apply emits_ret].
    apply emits_update_existing_users. apply Hupdate.
Qed.

(** What a run never does, whatever the consoles and the directory answer:
    it calls only the connectors of the engine; it creates only groups that
    are candidates of the organization of the connector; it inserts a user
    only when [create_new_users] is set; it deactivates a user only when
    [deactivate_sign_only_users] is set. *)
Theorem run_respects_configuration self directory_groups directory_connector
    (w : World C) :
  ∃ new,
    w_calls (run normalize_string parse_identity_type self directory_groups
               directory_connector w).2 = w_calls w ++ new
    ∧ Forall (λ c,
                c.1 ∈ connectors self
                ∧ match c.2 with
                  | CallCreateGroup name => name ∈ (user_groups self !!! c.1 : list string)
                  | CallInsertUser _ => create_new_users self = true
                  | CallDeactivateUser _ _ => deactivate_sign_only_users self = true
                  | _ => True
                  end) new.
Proof.
  revert w. change (emits (λ c, c.1 ∈ connectors self
                ∧ match c.2 with
                  | CallCreateGroup name => name ∈ (user_groups self !!! c.1 : list string)
                  | CallInsertUser _ => create_new_users self = true
                  | CallDeactivateUser _ _ => deactivate_sign_only_users self = true
                  | _ => True
                  end)
              (run normalize_string parse_identity_type self directory_groups
                 directory_connector)).
  unfold run. destruct (test_mode self); [apply emits_log|].
  apply emits_bind.
  - intros w. exists [].
    destruct (read_desired_user_groups_frame self directory_groups directory_connector w)
      as (_ & -> & _). by rewrite app_nil_r.
  - intros [directory_users|]; [|intros w; exists []; by rewrite app_nil_r].
    apply emits_for_each. intros org_name Horg.
    apply emits_bind; [by apply emits_call|]. intros existing.
    apply emits_bind.
    + apply emits_for_each. intros g Hg.
      apply emits_bind; [apply emits_log|]. intros _. apply emits_call. split; [done|].
      apply elem_of_elements, elem_of_difference in Hg as [Hg _].
      by apply elem_of_list_to_set in Hg.
    + intros _. apply emits_bind.
      * apply emits_bind; [by apply emits_call|]. intros sign_users.
        apply emits_for_each. intros du _. by apply update_sign_user_emits_flag.
      * intros _. destruct (deactivate_sign_only_users self) eqn:Hflag; [|apply emits_ret].
        apply emits_bind; [by apply emits_call|]. intros sign_users.
        apply emits_for_each. intros su _. destruct (negb _); [|apply emits_ret].
        unfold deactivate_user.
        apply emits_try_except; [by apply emits_call|intros e; apply emits_log].
Qed.
End Run.

Lemma read_desired_user_groups_accumulates_witness :
  ∃ w1 directory_users,
    read_desired_user_groups Model.normalize_string Model.parse_identity_type
      (Scenario.engine false) ∅ Scenario.directory_of_both
      {| w_conn := λ _, Scenario.console []; w_calls := []; w_dir_calls := [];
         w_log := [];
         w_directory_user_by_user_key :=
           [("federatedID,z@x.com,",
             Scenario.directory_user "z@x.com" "federatedID" ["everyone"])] |}
    = (Ok (Some directory_users), w1)
    ∧ Dict.keys directory_users
      = ["federatedID,z@x.com,"; "federatedID,a@x.com,"; "federatedID,b@x.com,"]
    ∧ ∀ k, k ∈ ["federatedID,z@x.com,"] → k ∈ Dict.keys directory_users.
Proof.
  set (w := {| w_conn := λ _, Scenario.console []; w_calls := []; w_dir_calls := [];
               w_log := [];
               w_directory_user_by_user_key :=
                 [("federatedID,z@x.com,",
                   Scenario.directory_user "z@x.com" "federatedID" ["everyone"])] |}).
  set (out := read_desired_user_groups Model.normalize_string Model.parse_identity_type
                (Scenario.engine false) ∅ Scenario.directory_of_both w).
  set (directory_users := w_directory_user_by_user_key out.2).
  assert (Hread : out = (Ok (Some directory_users), out.2)) by (vm_compute; reflexivity).
  exists out.2, directory_users. split; [exact Hread|]. split; [vm_compute; reflexivity|].
  apply (read_desired_user_groups_accumulates Model.normalize_string
           Model.parse_identity_type (Scenario.engine false) ∅ Scenario.directory_of_both
           w out.2 directory_users Hread).
Defined.

Lemma run_directory_failure_witness :
  ∃ w',
    run Model.normalize_string Model.parse_identity_type (Scenario.engine false) ∅
      (λ _, Failed "directory down") (Model.world0 (λ _, Scenario.console []))
    = (Raise (AssertionException "directory down"), w')
    ∧ w_calls w' = [].
Proof.
  destruct (run_directory_failure Model.normalize_string Model.parse_identity_type
              (Scenario.engine false) ∅ (λ _, Failed "directory down")
              (Model.world0 (λ _, Scenario.console [])) "directory down")
    as (w' & Hrun & Hcalls & _); [reflexivity..|].
  exists w'. split; [exact Hrun|exact Hcalls].
Defined.

Lemma run_reads_directory_once_witness :
  length (w_dir_calls
            (run Model.normalize_string Model.parse_identity_type (Scenario.engine false) ∅
               Scenario.directory_of_both (Model.world0 (λ _, Scenario.console []))).2)
  = 1.
Proof.
  destruct (run_reads_directory_once Model.normalize_string Model.parse_identity_type
              (Scenario.engine false) ∅ Scenario.directory_of_both
              (Model.world0 (λ _, Scenario.console []))) as [Hdir _]; [reflexivity|].
  rewrite Hdir. reflexivity.
Defined.

(** ** Keys of directory users *)

Section DirectoryKeys.
Context {C : Type} `{!SignConnector C}.
Variable normalize_string : option string → option string.
Variable parse_identity_type : option string → result (option string).

(** The key of a directory user is computed from its own identity type when
    it has one, and nothing is logged; a user without identity type is keyed
    under [new_account_type], and one warning is logged.  The world is
    otherwise untouched, and the email of the record is passed on as the
    fallback for a missing username. *)
Theorem get_directory_user_key_default_type self directory_user (w : World C) :
  ∃ w',
    get_directory_user_key normalize_string parse_identity_type self directory_user w
    = (get_user_key normalize_string parse_identity_type
         (Some (default (new_account_type self) (identity_type directory_user)))
         (username directory_user) (domain directory_user)
         (Some (email directory_user)), w')
    ∧ w_log w' = w_log w
        ++ match identity_type directory_user with
           | Some _ => []
           | None =>
               [{| level := WARNING;
                   template := "Found user with no identity type, using %s: %s";
                   args := [AStr (new_account_type self); AUser directory_user] |}]
           end
    ∧ w_calls w' = w_calls w
    ∧ w_dir_calls w' = w_dir_calls w
    ∧ w_directory_user_by_user_key w' = w_directory_user_by_user_key w.
Proof.
  unfold get_directory_user_key, get_identity_type_from_directory_user.
  rewrite run_bind. destruct (identity_type directory_user) as [t|]; simpl.
  - eexists. split; [reflexivity|]. by rewrite app_nil_r.
  - eexists. split; [reflexivity|]. done.
Qed.

(** The read of the directory stops at the first user whose identity type
    cannot be parsed: it ends with the exception of the parser, the users
    before it have been admitted, and no user after it is looked at. *)
Theorem read_desired_user_groups_unparsable self mappings directory_connector
    (w : World C) before directory_user later e :
  directory_connector
    {| dc_groups := match list_to_set <$> directory_group_filter self with
                    | Some f => dom mappings ∪ f
                    | None => dom mappings
                    end;
       dc_extended_attributes := extended_attributes self;
       dc_all_users := bool_decide ((list_to_set <$> directory_group_filter self
                                     : option (gset string)) = None) |}
  = Done (before ++ directory_user :: later) →
  (∀ du, du ∈ before →
         ∃ k, directory_user_key normalize_string parse_identity_type self du = Ok k) →
  directory_user_key normalize_string parse_identity_type self directory_user = Raise e →
  ∃ w',
    read_desired_user_groups normalize_string parse_identity_type self mappings
      directory_connector w = (Raise e, w')
    ∧ w_directory_user_by_user_key w'
      = foldl (admit_directory_user normalize_string parse_identity_type self)
              (w_directory_user_by_user_key w) before.
Proof.
  intros Hdc Hbefore Hraise. unfold read_desired_user_groups.
  rewrite run_bind. cbn [log]. rewrite run_bind. unfold call_directory at 1.
  rewrite Hdc. rewrite run_bind.
  match goal with |- context [for_each _ ?f ?w0] =>
    assert (Hloop : ∀ l (w1 : World C),
               (∀ du, du ∈ l →
                      ∃ k, directory_user_key normalize_string parse_identity_type
                             self du = Ok k) →
               ∃ w', for_each (l ++ directory_user :: later) f w1 = (Raise e, w')
                     ∧ w_directory_user_by_user_key w'
                       = foldl (admit_directory_user normalize_string
                                  parse_identity_type self)
                               (w_directory_user_by_user_key w1) l);
    [|destruct (Hloop before w0 Hbefore) as (w' & -> & Hs)]
  end.
  - induction l as [|du l IH]; intros w1 Hl.
    + cbn [app for_each foldl]. change (bind ?m ?k) with (m ≫= k). rewrite run_bind.
      destruct (read_turn normalize_string parse_identity_type self directory_user w1)
        as (w2 & -> & _ & _ & _ & Hs2).
      rewrite Hraise. exists w2. split; [done|].
      rewrite Hs2. unfold admit_directory_user. by rewrite Hraise.
    + cbn [app for_each foldl]. change (bind ?m ?k) with (m ≫= k). rewrite run_bind.
      destruct (read_turn normalize_string parse_identity_type self du w1)
        as (w2 & -> & _ & _ & _ & Hs2).
      destruct (Hl du (list_elem_of_here _ _)) as [k Hk]. rewrite Hk.
      destruct (IH w2) as (w' & Hrun & Hs'); [intros ? ?; apply Hl; by right|].
      exists w'. split; [done|]. by rewrite Hs', Hs2.
  - by exists w'.
Qed.
End DirectoryKeys.

Lemma read_desired_user_groups_unparsable_witness :
  ∃ w',
    read_desired_user_groups Model.normalize_string Model.parse_identity_type
      (Scenario.engine false) ∅ Scenario.directory_with_stranger
      (Model.world0 (λ _, Scenario.console []))
    = (Raise (AssertionException "Unrecognized identity type"), w')
    ∧ Dict.keys (w_directory_user_by_user_key w') = ["federatedID,a@x.com,"].
Proof.
  destruct (read_desired_user_groups_unparsable Model.normalize_string
              Model.parse_identity_type (Scenario.engine false) ∅
              Scenario.directory_with_stranger (Model.world0 (λ _, Scenario.console []))
              [Scenario.directory_user "a@x.com" "federatedID" ["everyone"]]
              Scenario.stranger
              [Scenario.directory_user "b@x.com" "federatedID" ["everyone"]]
              (AssertionException "Unrecognized identity type"))
    as (w' & Hrun & Hdict).
  - reflexivity.
  - intros du ->%list_elem_of_singleton. eexists. vm_compute. reflexivity.
  - vm_compute. reflexivity.
  - exists w'. split; [exact Hrun|]. rewrite Hdict. vm_compute. reflexivity.
Defined.

(** ** Group provisioning *)

Section Provisioning.
Context {C : Type} `{!SignConnector C}.
Variable normalize_string : option string → option string.
Variable parse_identity_type : option string → result (option string).

(** A run never asks a console to create a group that the console listed
    when the run started: for each connector of the engine, the groups
    created are candidates absent from the answer of [sign_groups]. *)
Theorem run_creates_only_missing_groups self directory_groups directory_connector
    (w : World C) :
  NoDup (connectors self) →
  ∃ new,
    w_calls (run normalize_string parse_identity_type self directory_groups
               directory_connector w).2 = w_calls w ++ new
    ∧ Forall (λ c,
                match c.2 with
                | CallCreateGroup name =>
                    ∀ existing s, sign_groups (w_conn w c.1) = (Done existing, s) →
                                  name ∉ existing
                | _ => True
                end) new.
Proof.
  intros Hnodup. unfold run.
  destruct (test_mode self); [exists []; by rewrite app_nil_r|].
  rewrite run_bind.
  destruct (read_desired_user_groups_frame normalize_string parse_identity_type self
              directory_groups directory_connector w) as (Hconn & Hcalls & _).
  simpl in Hconn, Hcalls.
  destruct (read_desired_user_groups _ _ _ _ _ w) as [[[directory_users|]|e] w1];
    simpl in Hconn, Hcalls |- *; [|exists []; by rewrite Hcalls, app_nil_r..].
  rewrite <- Hcalls.
  assert (Hstart : ∀ o, o ∈ connectors self → w_conn w1 o = w_conn w o)
    by (intros; by rewrite Hconn).
  clear Hconn Hcalls. revert w1 Hstart.
  match goal with |- context [for_each _ ?f] => set (body := f) end.
  assert (Hbody : ∀ o (w0 : World C),
             same_except o w0 (body o w0).2
             ∧ ∃ new,
                 w_calls (body o w0).2 = w_calls w0 ++ new
                 ∧ Forall (λ c,
                             c.1 = o
                             ∧ match c.2 with
                               | CallCreateGroup name =>
                                   ∀ existing s,
                                     sign_groups (w_conn w0 o) = (Done existing, s) →
                                     name ∉ existing
                               | _ => True
                               end) new).
  { intros o w0. split.
    - subst body.
      apply (preserves_bind (same_except o)); [apply local_call|].
      intros existing. apply (preserves_bind (same_except o)).
      + apply preserves_for_each; [apply _..|]. intros g _.
        apply (preserves_bind (same_except o)); [apply local_log|].
        intros _. apply local_call.
      + intros _. apply (preserves_bind (same_except o));
          [apply local_update_sign_users|].
        intros _. destruct (deactivate_sign_only_users self);
          [apply local_deactivate_sign_users|by apply preserves_ret].
    - subst body. cbn beta. rewrite run_bind. unfold call at 1.
      destruct (sign_groups (w_conn w0 o)) as [[existing|msg] s0] eqn:Hgroups.
      + match goal with |- context [(?m ≫= ?k) ?w2] =>
          destruct (emits_bind
                      (λ c, c.1 = o
                            ∧ match c.2 with
                              | CallCreateGroup name => name ∉ existing
                              | _ => True
                              end) m k) with w2 as (new & Hnew & Hall)
        end.
        * apply emits_for_each. intros g Hg.
          apply emits_bind; [apply emits_log|]. intros _. apply emits_call.
          split; [done|]. simpl.
          apply elem_of_elements, elem_of_difference in Hg as [_ Hg].
          intros Hin. apply Hg. by apply elem_of_list_to_set.
        * intros _. apply emits_bind.
          -- apply emits_bind; [by apply emits_call|]. intros sign_users.
             apply emits_for_each. intros du _. by apply update_sign_user_emits.
          -- intros _. destruct (deactivate_sign_only_users self); [|apply emits_ret].
             apply emits_bind; [by apply emits_call|]. intros sign_users.
             apply emits_for_each. intros su _. destruct (negb _); [|apply emits_ret].
             unfold deactivate_user.
             apply emits_try_except; [by apply emits_call|intros e; apply emits_log].
        * exists ((o, CallSignGroups) :: new). rewrite Hnew. cbn [w_calls].
          rewrite <- app_assoc. split; [done|]. constructor; [done|].
          eapply Forall_impl; [exact Hall|]. intros [h c] [Hh Hc]. split; [done|].
          destruct c; try done. simpl in *. by intros existing' s' [= <- _].
      + exists [(o, CallSignGroups)]. split; [done|]. by constructor. }
  clearbody body.
  induction (connectors self) as [|o orgs IH]; intros w1 Hstart.
  - exists []. by rewrite app_nil_r.
  - cbn [for_each]. change (bind ?m ?k) with (m ≫= k). rewrite run_bind.
    destruct (Hbody o w1) as [(Hlocal & _) (new1 & Hnew1 & Hall1)].
    assert (Hall1' : Forall (λ c,
                match c.2 with
                | CallCreateGroup name =>
                    ∀ existing s, sign_groups (w_conn w c.1) = (Done existing, s) →
                                  name ∉ existing
                | _ => True
                end) new1).
    { eapply Forall_impl; [exact Hall1|]. intros [h c] [Hh Hc]. simpl in Hh. subst h.
      destruct c; try done. simpl in *. rewrite <- (Hstart o) by by left. done. }
    destruct (body o w1) as [[[]|e] w2]; simpl in Hnew1, Hlocal |- *.
    + apply NoDup_cons in Hnodup as [Hout Hnodup].
      destruct (IH Hnodup w2) as (new2 & Hnew2 & Hall2).
      * intros o' Ho'. rewrite Hlocal by (intros ->; done). apply Hstart. by right.
      * exists (new1 ++ new2). rewrite Hnew2, Hnew1, <- app_assoc. split; [done|].
        by apply Forall_app.
    + by exists new1.
Qed.
End Provisioning.

Lemma run_creates_only_missing_groups_witness :
  NoDup (connectors (Scenario.engine false))
  ∧ ∃ new,
      w_calls (run Model.normalize_string Model.parse_identity_type
                 (Scenario.engine false) ∅ Scenario.directory
                 (Model.world0 (λ _, {| Model.con_groups :=
                                          [("default group", "default group");
                                           ("finance", "finance")];
                                        Model.con_users := Scenario.roster;
                                        Model.refused := [] |}))).2 = [] ++ new
      ∧ Forall (λ c,
                  match c.2 with
                  | CallCreateGroup name =>
                      ∀ existing s,
                        (Done ["default group"; "finance"],
                         {| Model.con_groups :=
                              [("default group", "default group"); ("finance", "finance")];
                            Model.con_users := Scenario.roster;
                            Model.refused := [] |}) = (Done existing, s) →
                        name ∉ existing
                  | _ => True
                  end) new.
Proof.
  assert (Hnodup : NoDup (connectors (Scenario.engine false)))
    by apply NoDup_singleton.
  split; [exact Hnodup|].
  exact (run_creates_only_missing_groups Model.normalize_string Model.parse_identity_type
           (Scenario.engine false) ∅ Scenario.directory
           (Model.world0 (λ _, {| Model.con_groups :=
                                    [("default group", "default group");
                                     ("finance", "finance")];
                                  Model.con_users := Scenario.roster;
                                  Model.refused := [] |})) Hnodup).
Defined.
